(** * Pixel-perfect image to SVG converter: embedding and verification

    Shallow embedding of [img2svg_pixelperfect_ui.py]: the run-length
    encoder [image_to_svg_vector] with its number formatting, the batch
    driver [convert_selected] / [clear_converted] and the selection
    [_add_paths], over an explicit model of the file system. *)

From Stdlib Require Import ZArith NArith Zpow_facts Ascii String Sorted.
From Stdlib Require Import Floats.PrimFloat Floats.SpecFloat Floats.FloatOps Uint63.
From stdpp Require Import gmap strings list fin_maps.

(** * The program *)

(** ** Text primitives *)

(** The double quote and the newline, which the f-strings of the source
    contain literally. *)
Definition DQ : string := String (ascii_of_nat 34) EmptyString.
Definition NL : string := String (ascii_of_nat 10) EmptyString.

(** [str(n)] for a non-negative Python int: its decimal digits. *)
Definition digit_char (d : N) : ascii := ascii_of_N (48 + d).

Fixpoint dec_go (fuel : nat) (n : N) (acc : string) : string :=
  match fuel with
  | O => acc
  | S k =>
      let acc' := String (digit_char (n mod 10)) acc in
      if (n / 10 =? 0)%N then acc' else dec_go k (n / 10) acc'
  end.

Definition str_N (n : N) : string := dec_go (S (N.size_nat n)) n EmptyString.
Definition str_nat (n : nat) : string := str_N (N.of_nat n).

(** Upper-case hexadecimal digits, as the [X] presentation type gives. *)
Definition hex_char (d : N) : ascii :=
  if (d <? 10)%N then ascii_of_N (48 + d) else ascii_of_N (55 + d).

Fixpoint hex_go (fuel : nat) (n : N) (acc : string) : string :=
  match fuel with
  | O => acc
  | S k =>
      let acc' := String (hex_char (n mod 16)) acc in
      if (n / 16 =? 0)%N then acc' else hex_go k (n / 16) acc'
  end.

Definition hex_N (n : N) : string := hex_go (S (N.size_nat n)) n EmptyString.

Fixpoint zeros (k : nat) : string :=
  match k with
  | O => EmptyString
  | S k' => String "0"%char (zeros k')
  end.

(** Zero padding on the left up to a minimal width (the [0w] of a format
    specification: longer texts are left as they are). *)
Definition pad0 (width : nat) (s : string) : string :=
  zeros (width - String.length s) +:+ s.

(** [f"{n:02X}"] *)
Definition fmt_02X (n : N) : string := pad0 2 (hex_N n).

(** ** Floating point: [a / 255.0] and [f"{v:.6f}"]

    Python floats are IEEE 754 binary64 numbers, which are Rocq's primitive
    floats.  The conversion of the int operand is exact below [2^53]. *)
Definition float_of_N (n : N) : float :=
  PrimFloat.of_uint63 (Uint63.of_Z (Z.of_N n)).

(** Rounding of the rational [num / den] to the nearest integer, ties to
    even: the rounding of [%.6f], which is correctly rounded from the exact
    binary value. *)
Definition round_half_even (num : Z) (den : Z) : Z :=
  let q := (num / den)%Z in
  let r := (num mod den)%Z in
  match (2 * r ?= den)%Z with
  | Lt => q
  | Gt => (q + 1)%Z
  | Eq => if Z.even q then q else (q + 1)%Z
  end.

(** The integer [round(v * 10^6)] for a finite non-zero [v = m * 2^e]. *)
Definition micro_of_finite (m : positive) (e : Z) : Z :=
  if (0 <=? e)%Z
  then (Z.pos m * 2 ^ e * 1000000)%Z
  else round_half_even (Z.pos m * 1000000) (2 ^ (- e)).

Definition fixed6 (neg : bool) (q : Z) : string :=
  (if neg then "-" else EmptyString)
  +:+ str_N (Z.to_N (q / 1000000)) +:+ "."
  +:+ pad0 6 (str_N (Z.to_N (q mod 1000000))).

(** [f"{v:.6f}"] *)
Definition fmt_6f (v : float) : string :=
  match Prim2SF v with
  | S754_zero neg => fixed6 neg 0
  | S754_finite neg m e => fixed6 neg (micro_of_finite m e)
  | S754_infinity neg => if neg then "-inf" else "inf"
  | S754_nan => "nan"
  end.

(** ** Pixels and images *)

(** An RGBA quadruple as [pixels[x, y]] returns it. *)
Definition rgba : Type := N * N * N * N.

Definition rgba_eqb (p q : rgba) : bool :=
  let '(r1, g1, b1, a1) := p in
  let '(r2, g2, b2, a2) := q in
  (r1 =? r2)%N && (g1 =? g2)%N && (b1 =? b2)%N && (a1 =? a2)%N.

Definition alpha (p : rgba) : N := snd p.

(** The image after [convert("RGBA")]: [img.size] and the pixel access
    object of [img.load()]. *)
Record Image : Type := {
  width : nat;
  height : nat;
  pixels : nat -> nat -> rgba
}.

(** ** The converter *)

Definition rgba_to_svg_fill (r g b a : N) : string * float :=
  ("#" +:+ fmt_02X r +:+ fmt_02X g +:+ fmt_02X b,
   PrimFloat.div (float_of_N a) (float_of_N 255)).

(** One horizontal run: the values the source holds in [y], [run_start],
    [run_len] and [(run_r, run_g, run_b, run_a)] when it writes a rect. *)
Record Run : Type := {
  run_y : nat;
  run_start : nat;
  run_len : nat;
  run_color : rgba
}.

Section Scan.
Variable px : nat -> nat -> rgba.
Variable w : nat.
Variable y : nat.

(** The inner loop
    [while x < w and pixels[x, y] == (run_r, run_g, run_b, run_a): x += 1],
    returning the final [x]. *)
Fixpoint run_end (fuel : nat) (c : rgba) (x : nat) : nat :=
  match fuel with
  | O => x
  | S k =>
      if (x <? w) && rgba_eqb (px x y) c
      then run_end k c (x + 1)
      else x
  end.

(** The loop [while x < w: ...] over one row, returning the runs in the
    order their rects are written. *)
Fixpoint scan_row (fuel : nat) (x : nat) : list Run :=
  match fuel with
  | O => []
  | S k =>
      if x <? w then
        let '(r, g, b, a) := px x y in
        if (a =? 0)%N then scan_row k (x + 1)
        else
          let run_start := x in
          let x' := run_end w (r, g, b, a) (x + 1) in
          let run_len := x' - run_start in
          {| run_y := y; run_start := run_start; run_len := run_len;
             run_color := (r, g, b, a) |} :: scan_row k x'
      else []
  end.
End Scan.

(** The runs of row [y]: the row loop started at [x = 0]; [w] iterations
    are enough since every iteration advances [x]. *)
Definition row_runs (img : Image) (y : nat) : list Run :=
  scan_row (pixels img) (width img) y (width img) 0.

(** [for y in range(h)] *)
Definition encode (img : Image) : list Run :=
  flat_map (row_runs img) (seq 0 (height img)).

(** The [f.write] calls for one run, in order. *)
Definition rect_open (r : Run) : string :=
  let '(cr, cg, cb, ca) := run_color r in
  let fill_hex := fst (rgba_to_svg_fill cr cg cb ca) in
  "  <rect x=" +:+ DQ +:+ str_nat (run_start r) +:+ DQ
  +:+ " y=" +:+ DQ +:+ str_nat (run_y r) +:+ DQ
  +:+ " width=" +:+ DQ +:+ str_nat (run_len r) +:+ DQ
  +:+ " height=" +:+ DQ +:+ "1" +:+ DQ
  +:+ " fill=" +:+ DQ +:+ fill_hex +:+ DQ.

Definition rect_opacity (r : Run) : list string :=
  let '(cr, cg, cb, ca) := run_color r in
  let fill_opacity := snd (rgba_to_svg_fill cr cg cb ca) in
  if PrimFloat.ltb fill_opacity 1%float
  then [" fill-opacity=" +:+ DQ +:+ fmt_6f fill_opacity +:+ DQ]
  else [].

Definition rect_close : string := "/>" +:+ NL.

Definition rect_writes (r : Run) : list string :=
  rect_open r :: rect_opacity r ++ [rect_close].

Definition xml_decl : string :=
  "<?xml version=" +:+ DQ +:+ "1.0" +:+ DQ +:+ " encoding=" +:+ DQ +:+ "UTF-8" +:+ DQ
  +:+ "?>" +:+ NL.

Definition svg_open (w h : nat) : string :=
  "<svg xmlns=" +:+ DQ +:+ "http://www.w3.org/2000/svg" +:+ DQ
  +:+ " width=" +:+ DQ +:+ str_nat w +:+ DQ
  +:+ " height=" +:+ DQ +:+ str_nat h +:+ DQ
  +:+ " viewBox=" +:+ DQ +:+ "0 0 " +:+ str_nat w +:+ " " +:+ str_nat h +:+ DQ
  +:+ " " +:+ "shape-rendering=" +:+ DQ +:+ "crispEdges" +:+ DQ +:+ ">" +:+ NL.

Definition svg_close : string := "</svg>" +:+ NL.

(** Every [f.write] of [image_to_svg_vector], in order. *)
Definition svg_writes (img : Image) : list string :=
  xml_decl :: svg_open (width img) (height img)
  :: flat_map rect_writes (encode img) ++ [svg_close].

Definition concat_str (l : list string) : string :=
  fold_right String.append EmptyString l.

(** The text of the file once every write has succeeded. *)
Definition svg_text (img : Image) : string := concat_str (svg_writes img).

(** ** The environment: a file system and the image library

    A path is the list of its components below the root.  A regular file has
    its text and a flag telling that the system refuses to delete or rewrite
    it (a read-only or locked file).  [free] is the room left on the disk, in
    bytes, and [opened] records the calls of [Image.open].  The converter
    writes ASCII text only, so a character of a text is a byte of its file. *)
Abbreviation path := (list string).

Inductive node : Type :=
| File (data : string) (locked : bool)
| Dir.

Record world : Type := {
  nodes : gmap path node;
  free : nat;
  opened : list path
}.

Definition with_nodes (f : gmap path node -> gmap path node) (s : world) : world :=
  {| nodes := f (nodes s); free := free s; opened := opened s |}.

(** A computation runs in a world and either returns or raises an
    [Exception] with a message; the effects made before a raise stay. *)
Inductive result (A : Type) : Type :=
| Ok (a : A)
| Raise (msg : string).
Arguments Ok {A} a.
Arguments Raise {A} msg.

Definition M (A : Type) : Type := world -> result A * world.

Definition ret {A : Type} (a : A) : M A := fun s => (Ok a, s).

Definition raise {A : Type} (msg : string) : M A := fun s => (Raise msg, s).

Definition bind {A B : Type} (m : M A) (k : A -> M B) : M B :=
  fun s =>
    match m s with
    | (Ok a, s') => k a s'
    | (Raise msg, s') => (Raise msg, s')
    end.

Definition lift {A : Type} (r : result A) : M A := fun s => (r, s).

(** [try: m  except Exception as e: h e] *)
Definition try_except {A : Type} (m : M A) (h : string -> M A) : M A :=
  fun s =>
    match m s with
    | (Ok a, s') => (Ok a, s')
    | (Raise msg, s') => h msg s'
    end.

Notation "'let*' x ':=' m 'in' k" := (bind m (fun x => k))
  (at level 10, x name, m at level 100, k at level 200).
Notation "m ';;;' k" := (bind m (fun _ => k))
  (at level 100, k at level 200, right associativity).

(** [for b in l: body b] *)
Fixpoint for_each {B : Type} (l : list B) (body : B -> M unit) : M unit :=
  match l with
  | [] => ret tt
  | b :: l' => body b ;;; for_each l' body
  end.

(** A [for] loop whose body updates local variables [t]. *)
Fixpoint for_fold {B T : Type} (l : list B) (body : B -> T -> M T) (t : T) : M T :=
  match l with
  | [] => ret t
  | b :: l' => let* t' := body b t in for_fold l' body t'
  end.

(** *** File system calls *)

Definition is_child (d q : path) : bool :=
  bool_decide (q <> [] /\ removelast q = d).

Definition children (d : path) (m : gmap path node) : list path :=
  filter (fun q => is_child d q = true) (map_to_list m).*1.

(** [p.exists()], for a path whose names the file system accepts. *)
Definition path_exists (p : path) : M bool :=
  fun s => (Ok (bool_decide (is_Some (nodes s !! p))), s).

(** [open(p, "w")]: creates the file in an existing directory, or empties
    the file that is there; the names of [p] are ones the file system
    accepts. *)
Definition open_w (p : path) : M unit :=
  fun s =>
    match nodes s !! p with
    | Some Dir => (Raise "Is a directory", s)
    | Some (File _ true) => (Raise "Permission denied", s)
    | Some (File old false) =>
        (Ok tt, {| nodes := <[p := File EmptyString false]> (nodes s);
                   free := free s + String.length old;
                   opened := opened s |})
    | None =>
        match nodes s !! removelast p with
        | Some Dir => (Ok tt, with_nodes (insert p (File EmptyString false)) s)
        | _ => (Raise "No such file or directory", s)
        end
    end.

(** *** The text file of [open(p, "w")]

    The file object keeps the text written to it in a buffer.  It passes the
    buffer on to the system when the buffer has grown beyond [size], and when
    the file is closed.  The system stores the bytes the disk has room for,
    in order, and raises [OSError] when some are left over; those stay in the
    buffer.  A computation on an open file carries the buffer next to the
    world. *)
Definition F (A : Type) : Type := string -> world -> result A * string * world.

(** [str(e)] of the [OSError] of a full disk. *)
Definition ENOSPC : string := "[Errno 28] No space left on device".

(** [f.flush()] *)
Definition flush (p : path) : F unit :=
  fun buffer s =>
    match nodes s !! p with
    | Some (File data locked) =>
        if String.length buffer <=? free s
        then (Ok tt, EmptyString,
              {| nodes := <[p := File (data +:+ buffer) locked]> (nodes s);
                 free := free s - String.length buffer;
                 opened := opened s |})
        else (Raise ENOSPC,
              String.substring (free s) (String.length buffer - free s) buffer,
              {| nodes := <[p := File (data +:+ String.substring 0 (free s) buffer) locked]>
                            (nodes s);
                 free := 0;
                 opened := opened s |})
    | _ => (Raise "[Errno 9] Bad file descriptor", buffer, s)
    end.

(** [f.write(text)] *)
Definition write (size : nat) (p : path) (text : string) : F unit :=
  fun buffer s =>
    let buffer' := buffer +:+ text in
    if size <? String.length buffer' then flush p buffer' s
    else (Ok tt, buffer', s).

(** The writes of the body of a [with] block, in order; a raise ends them. *)
Fixpoint write_each (size : nat) (p : path) (chunks : list string)
    (buffer : string) (s : world) {struct chunks} : result unit * string * world :=
  match chunks with
  | [] => (Ok tt, buffer, s)
  | c :: rest =>
      match write size p c buffer s with
      | (Ok _, buffer', s') => write_each size p rest buffer' s'
      | (Raise e, buffer', s') => (Raise e, buffer', s')
      end
  end.

(** Leaving the [with] block, by its end or by an exception: the file is
    closed, which flushes the buffer; an exception of the close is the one
    that leaves the block. *)
Definition close (p : path) (r : result unit * string * world) : result unit * world :=
  match r with
  | (Ok _, buffer, s) => let '(r', _, s') := flush p buffer s in (r', s')
  | (Raise e, buffer, s) =>
      match flush p buffer s with
      | (Ok _, _, s') => (Raise e, s')
      | (Raise e', _, s') => (Raise e', s')
      end
  end.

(** [with f: body], for the file [f] opened at [p]. *)
Definition with_file (p : path) (body : F unit) : M unit :=
  fun s => close p (body EmptyString s).

(** [p.unlink()] *)
Definition unlink (p : path) : M unit :=
  fun s =>
    match nodes s !! p with
    | Some (File data false) =>
        (Ok tt, {| nodes := delete p (nodes s);
                   free := free s + String.length data;
                   opened := opened s |})
    | Some (File _ true) => (Raise "Permission denied", s)
    | Some Dir => (Raise "Is a directory", s)
    | None => (Raise "No such file or directory", s)
    end.

(** [p.rmdir()]: only an empty directory is removed. *)
Definition rmdir (p : path) : M unit :=
  fun s =>
    match nodes s !! p with
    | Some Dir =>
        match children p (nodes s) with
        | [] => (Ok tt, with_nodes (delete p) s)
        | _ :: _ => (Raise "Directory not empty", s)
        end
    | Some (File _ _) => (Raise "Not a directory", s)
    | None => (Raise "No such file or directory", s)
    end.

(** [p.iterdir()], read when the loop starts. *)
Definition iterdir (p : path) : M (list path) :=
  fun s =>
    match nodes s !! p with
    | Some Dir => (Ok (children p (nodes s)), s)
    | Some (File _ _) => (Raise "Not a directory", s)
    | None => (Raise "No such file or directory", s)
    end.

(** [p.mkdir(exist_ok=True)] *)
Definition mkdir_exist_ok (p : path) : M unit :=
  fun s =>
    match nodes s !! p with
    | Some Dir => (Ok tt, s)
    | Some (File _ _) => (Raise "File exists", s)
    | None =>
        match nodes s !! removelast p with
        | Some Dir => (Ok tt, with_nodes (insert p Dir) s)
        | _ => (Raise "No such file or directory", s)
        end
    end.

(** *** pathlib *)

(** [p.name]: the final component. *)
Definition name (p : path) : string := List.last p EmptyString.

(** [s.rfind(".")] *)
Fixpoint rfind_dot (s : string) : option nat :=
  match s with
  | EmptyString => None
  | String c s' =>
      match rfind_dot s' with
      | Some i => Some (S i)
      | None => if Ascii.eqb c "."%char then Some 0 else None
      end
  end.

(** [p.stem]: the name without its last suffix; a leading or a trailing dot
    starts no suffix. *)
Definition stem (p : path) : string :=
  let n := name p in
  match rfind_dot n with
  | Some i => if (0 <? i) && (i <? String.length n - 1) then String.substring 0 i n else n
  | None => n
  end.

(** *** The platform: where the program lives, Pillow and the buffer

    [pil_open] is [Image.open] on the bytes of a file, [pil_convert_rgba] is
    [im.convert("RGBA")], which is where a lazily opened image is decoded.
    [buffer_size] is the size of the buffer of a text file ([8192] in
    CPython, or the block size of the device). *)
Class Platform : Type := {
  BASE_DIR : path;
  pil_image : Type;
  pil_open : string -> result pil_image;
  pil_convert_rgba : pil_image -> result Image;
  buffer_size : nat
}.

Section Orchestrator.
Context {platform : Platform}.

Definition OUTPUT_DIR : path := BASE_DIR ++ ["converted_svgs"].

(** [Image.open(src)] *)
Definition image_open (src : path) : M pil_image :=
  fun s =>
    let s' := {| nodes := nodes s; free := free s; opened := opened s ++ [src] |} in
    match nodes s !! src with
    | Some (File data _) => (pil_open data, s')
    | Some Dir => (Raise "Is a directory", s')
    | None => (Raise "No such file or directory", s')
    end.

Definition image_to_svg_vector (pil_img : pil_image) (out_path : path) : M unit :=
  let* img := lift (pil_convert_rgba pil_img) in
  open_w out_path ;;;
  with_file out_path (write_each buffer_size out_path (svg_writes img)).

(** The lists [converted], [skipped] and [errors] of [convert_selected]. *)
Record tally : Type := {
  converted : list string;
  skipped : list string;
  errors : list string
}.

Definition no_tally : tally := {| converted := []; skipped := []; errors := [] |}.

Definition converted_append (t : tally) (n : string) : tally :=
  {| converted := converted t ++ [n]; skipped := skipped t; errors := errors t |}.
Definition skipped_append (t : tally) (n : string) : tally :=
  {| converted := converted t; skipped := skipped t ++ [n]; errors := errors t |}.
Definition errors_append (t : tally) (n : string) : tally :=
  {| converted := converted t; skipped := skipped t; errors := errors t ++ [n] |}.

Definition out_svg (src : path) : path := OUTPUT_DIR ++ [stem src +:+ ".svg"].

(** The body of the [try] for one selected path; [continue] ends it. *)
Definition convert_try (src : path) (t : tally) : M tally :=
  let* here := path_exists src in
  if negb here then ret (errors_append t (name src +:+ " (missing)"))
  else
    let* there := path_exists (out_svg src) in
    if there then ret (skipped_append t (name src))
    else
      let* im := image_open src in
      image_to_svg_vector im (out_svg src) ;;;
      ret (converted_append t (name src)).

(** One iteration of the loop: the [try] and its [except Exception]. *)
Definition convert_path (src : path) (t : tally) : M tally :=
  try_except (convert_try src t)
    (fun e => ret (errors_append t (name src +:+ " (error: " +:+ e +:+ ")"))).

(** [convert_selected], given the content of [self.selected_paths]; the
    message box, the tree view and the results box are left out. *)
Definition convert_selected (selected_paths : list path) : M tally :=
  match selected_paths with
  | [] => ret no_tally
  | _ :: _ =>
      mkdir_exist_ok OUTPUT_DIR ;;;
      for_fold selected_paths convert_path no_tally
  end.

Definition clear_converted : M unit :=
  let* here := path_exists OUTPUT_DIR in
  if here then
    (let* fs := iterdir OUTPUT_DIR in
     for_each fs (fun f => try_except (unlink f) (fun _ => ret tt))) ;;;
    try_except (rmdir OUTPUT_DIR) (fun _ => ret tt)
  else ret tt.
End Orchestrator.

(** ** The selection

    [_add_paths] fills [self.selected_paths] from the paths the dialogs
    return.  It works on [Path(p).resolve()], the absolute path with every
    symbolic link replaced by what it points to.  The operating system
    computes it; the selection takes it as the function [resolve], and what
    is proved of the selection holds whatever that function is. *)

(** [p.suffix]: the last suffix of the name, with its dot; a leading or a
    trailing dot starts no suffix. *)
Definition suffix (p : path) : string :=
  let n := name p in
  match rfind_dot n with
  | Some i =>
      if (0 <? i) && (i <? String.length n - 1)
      then String.substring i (String.length n - i) n
      else EmptyString
  | None => EmptyString
  end.

(** [s.lower()] on the letters [A] to [Z]; the suffixes of [SUPPORTED_EXT]
    hold no other lower-case letter. *)
Definition lower_char (c : ascii) : ascii :=
  let n := N_of_ascii c in
  if (65 <=? n)%N && (n <=? 90)%N then ascii_of_N (n + 32) else c.

Fixpoint lower (s : string) : string :=
  match s with
  | EmptyString => EmptyString
  | String c s' => String (lower_char c) (lower s')
  end.

Definition SUPPORTED_EXT : gset string :=
  {[ ".png"; ".jpg"; ".jpeg"; ".bmp"; ".gif"; ".tif"; ".tiff"; ".webp" ]}.

(** [Path(p).suffix.lower() in SUPPORTED_EXT] *)
Definition supported (p : path) : bool :=
  bool_decide (lower (suffix p) ∈ SUPPORTED_EXT).

(** [p.is_dir()] and [p.is_file()] *)
Definition is_dir (s : world) (p : path) : bool :=
  match nodes s !! p with
  | Some Dir => true
  | _ => false
  end.

Definition is_file (s : world) (p : path) : bool :=
  match nodes s !! p with
  | Some (File _ _) => true
  | _ => false
  end.

(** [os.listdir(folder)]: the names of the entries of the folder. *)
Definition listdir (s : world) (folder : path) : list string :=
  name <$> children folder (nodes s).

(** The loop over the entries of a folder; the state is
    [self.selected_paths] and the counter [added]. *)
Fixpoint add_folder (resolve : path -> path) (folder : path) (fnames : list string)
    (st : list path * nat) : list path * nat :=
  match fnames with
  | [] => st
  | fname :: rest =>
      if supported [fname] then
        let fpath := resolve (folder ++ [fname]) in
        if bool_decide (fpath ∈ st.1) then add_folder resolve folder rest st
        else add_folder resolve folder rest (st.1 ++ [fpath], st.2 + 1)
      else add_folder resolve folder rest st
  end.

(** One iteration of the loop over [paths]. *)
Definition add_path (resolve : path -> path) (s : world) (p : path)
    (st : list path * nat) : list path * nat :=
  let p := resolve p in
  if bool_decide (p ∈ st.1) then st
  else if is_dir s p then add_folder resolve p (listdir s p) st
  else if is_file s p then
    if supported p then (st.1 ++ [p], st.2 + 1) else st
  else st.

(** [_add_paths]: the new selection and the line it logs; the tree view is
    left out. *)
Definition _add_paths (resolve : path -> path) (s : world)
    (selected_paths : list path) (paths : list path) : list path * string :=
  let st := fold_left (fun st p => add_path resolve s p st) paths (selected_paths, 0) in
  (st.1,
   if st.2 =? 0 then "No supported images added."
   else "Added " +:+ str_nat st.2 +:+ " file(s).").

(** ** Reading a document back

    The reader of the documents the converter writes: the size of the [svg]
    element and its [rect] elements, and the raster they paint.  It is the
    yardstick of the round trip, not part of the program. *)

(** The text left after a literal, when the text starts with it. *)
Fixpoint expect (lit s : string) : option string :=
  match lit with
  | EmptyString => Some s
  | String c lit' =>
      match s with
      | String d s' => if Ascii.eqb c d then expect lit' s' else None
      | EmptyString => None
      end
  end.

(** The text up to the next double quote, and the text after that quote. *)
Fixpoint until_dq (s : string) : option (string * string) :=
  match s with
  | EmptyString => None
  | String c s' =>
      if Ascii.eqb c (ascii_of_nat 34) then Some (EmptyString, s')
      else '(v, rest) ← until_dq s'; Some (String c v, rest)
  end.

(** The value of the attribute [key] that starts the text. *)
Definition attr (key s : string) : option (string * string) :=
  s' ← expect (key +:+ "=" +:+ DQ) s; until_dq s'.

Definition digit_val (c : ascii) : option N :=
  let n := N_of_ascii c in
  if (48 <=? n)%N && (n <=? 57)%N then Some (n - 48)%N else None.

Fixpoint digits_val (acc : N) (s : string) : option N :=
  match s with
  | EmptyString => Some acc
  | String c s' => d ← digit_val c; digits_val (10 * acc + d) s'
  end.

Definition read_N (s : string) : option N :=
  match s with
  | EmptyString => None
  | String _ _ => digits_val 0 s
  end.

Definition read_nat (s : string) : option nat := N.to_nat <$> read_N s.

Definition hex_val (c : ascii) : option N :=
  let n := N_of_ascii c in
  if (48 <=? n)%N && (n <=? 57)%N then Some (n - 48)%N
  else if (65 <=? n)%N && (n <=? 70)%N then Some (n - 55)%N
  else if (97 <=? n)%N && (n <=? 102)%N then Some (n - 87)%N
  else None.

Definition read_hex2 (c1 c2 : ascii) : option N :=
  h ← hex_val c1; l ← hex_val c2; Some (16 * h + l)%N.

(** [#RRGGBB] *)
Definition read_fill (s : string) : option (N * N * N) :=
  match s with
  | String "#" (String r1 (String r2 (String g1 (String g2 (String b1 (String b2 EmptyString)))))) =>
      r ← read_hex2 r1 r2; g ← read_hex2 g1 g2; b ← read_hex2 b1 b2; Some (r, g, b)
  | _ => None
  end.

Fixpoint until_dot (s : string) : option (string * string) :=
  match s with
  | EmptyString => None
  | String c s' =>
      if Ascii.eqb c "."%char then Some (EmptyString, s')
      else '(v, rest) ← until_dot s'; Some (String c v, rest)
  end.

(** The 8-bit alpha of an opacity [i.ffffff]: [round(255 * opacity)]. *)
Definition read_opacity (s : string) : option N :=
  '(ip, fp) ← until_dot s;
  i ← read_N ip;
  f ← read_N fp;
  let unit := (10 ^ N.of_nat (String.length fp))%N in
  Some ((2 * 255 * (i * unit + f) + unit) / (2 * unit))%N.

Record Rect : Type := {
  rect_x : nat;
  rect_y : nat;
  rect_width : nat;
  rect_height : nat;
  rect_color : rgba
}.

(** One [rect] element at the start of the text, and the text after it. *)
Definition parse_rect (s : string) : option (Rect * string) :=
  s ← expect "  <rect" s;
  '(vx, s) ← attr " x" s;
  '(vy, s) ← attr " y" s;
  '(vw, s) ← attr " width" s;
  '(vh, s) ← attr " height" s;
  '(vf, s) ← attr " fill" s;
  x ← read_nat vx;
  y ← read_nat vy;
  w ← read_nat vw;
  h ← read_nat vh;
  '(r, g, b) ← read_fill vf;
  match attr " fill-opacity" s with
  | Some (vo, s) =>
      a ← read_opacity vo;
      s ← expect rect_close s;
      Some ({| rect_x := x; rect_y := y; rect_width := w; rect_height := h;
               rect_color := (r, g, b, a) |}, s)
  | None =>
      s ← expect rect_close s;
      Some ({| rect_x := x; rect_y := y; rect_width := w; rect_height := h;
               rect_color := (r, g, b, 255%N) |}, s)
  end.

(** The [rect] elements up to the closing tag, which ends the text. *)
Fixpoint parse_rects (fuel : nat) (s : string) : option (list Rect) :=
  match fuel with
  | O => None
  | S k =>
      match expect svg_close s with
      | Some EmptyString => Some []
      | Some (String _ _) => None
      | None =>
          '(r, s') ← parse_rect s;
          rs ← parse_rects k s';
          Some (r :: rs)
      end
  end.

Definition parse_svg (s : string) : option (nat * nat * list Rect) :=
  s ← expect xml_decl s;
  s ← expect "<svg" s;
  '(_, s) ← attr " xmlns" s;
  '(vw, s) ← attr " width" s;
  '(vh, s) ← attr " height" s;
  '(_, s) ← attr " viewBox" s;
  '(_, s) ← attr " shape-rendering" s;
  s ← expect (">" +:+ NL) s;
  w ← read_nat vw;
  h ← read_nat vh;
  rects ← parse_rects (String.length s) s;
  Some (w, h, rects).

Definition covers (r : Rect) (x y : nat) : bool :=
  (rect_x r <=? x) && (x <? rect_x r + rect_width r)
  && (rect_y r <=? y) && (y <? rect_y r + rect_height r).

(** Painting in document order over a background [bg]: a later rectangle
    lies over an earlier one. *)
Definition paint (bg : rgba) (rects : list Rect) (x y : nat) : rgba :=
  fold_left (fun acc r => if covers r x y then rect_color r else acc) rects bg.

Definition rasterize (bg : rgba) (text : string) : option Image :=
  '(w, h, rects) ← parse_svg text;
  Some {| width := w; height := h; pixels := paint bg rects |}.

(** ** Vocabulary of the statements *)

(** Every channel of every pixel of the image is a byte, as in mode RGBA. *)
Definition byte_rgba (p : rgba) : Prop :=
  let '(r, g, b, a) := p in (r < 256 /\ g < 256 /\ b < 256 /\ a < 256)%N.

Definition rgba8 (img : Image) : Prop :=
  forall x y, x < width img -> y < height img -> byte_rgba (pixels img x y).

(** Column [x] lies in the span of the run. *)
Definition spans (r : Run) (x : nat) : bool :=
  (run_start r <=? x) && (x <? run_start r + run_len r).

Definition span_count (runs : list Run) (x : nat) : nat :=
  length (List.filter (fun r => spans r x) runs).

(** The runs of the image written for row [y]. *)
Definition runs_of_row (img : Image) (y : nat) : list Run :=
  List.filter (fun r => run_y r =? y) (encode img).

(** The runs lie left to right without touching the same column twice. *)
Definition run_before (r1 r2 : Run) : Prop :=
  run_start r1 + run_len r1 <= run_start r2.

(** What one iteration of the row loop that meets an opaque pixel at
    column [x] appends. *)
Definition run_at (px : nat -> nat -> rgba) (w y x : nat) : Run :=
  {| run_y := y; run_start := x;
     run_len := run_end px w y w (px x y) (x + 1) - x;
     run_color := px x y |}.

(** What holds of a run written while scanning row [y] from column [lo]. *)
Definition run_ok (px : nat -> nat -> rgba) (w y lo : nat) (r : Run) : Prop :=
  run_y r = y /\ lo <= run_start r /\ 1 <= run_len r
  /\ run_start r + run_len r <= w
  /\ alpha (run_color r) <> 0%N
  /\ forall i, spans r i = true -> px i y = run_color r.

(** The rectangle a run is written as. *)
Definition rect_of_run (r : Run) : Rect :=
  {| rect_x := run_start r; rect_y := run_y r; rect_width := run_len r;
     rect_height := 1; rect_color := run_color r |}.

(** The digit [d] of base 16, in upper case. *)
Definition upper_hex_digit (d : N) : ascii :=
  match String.get (N.to_nat d) "0123456789ABCDEF" with
  | Some c => c
  | None => "?"%char
  end.

(** Two upper-case hexadecimal digits. *)
Definition hex2 (n : N) : string :=
  String (upper_hex_digit (n / 16)) (String (upper_hex_digit (n mod 16)) EmptyString).

(** The quotient [a / 255] rounded to the nearest multiple of [10^-6] (ties
    to even), written with its six decimals. *)
Definition opacity_text (a : N) : string :=
  "0." +:+ pad0 6 (str_N (Z.to_N (round_half_even (Z.of_N a * 1000000) 255))).

(** The element a run is to be written as. *)
Definition rect_text (r : Run) : string :=
  let '(cr, cg, cb, ca) := run_color r in
  "  <rect x=" +:+ DQ +:+ str_nat (run_start r) +:+ DQ
  +:+ " y=" +:+ DQ +:+ str_nat (run_y r) +:+ DQ
  +:+ " width=" +:+ DQ +:+ str_nat (run_len r) +:+ DQ
  +:+ " height=" +:+ DQ +:+ "1" +:+ DQ
  +:+ " fill=" +:+ DQ +:+ ("#" +:+ hex2 cr +:+ hex2 cg +:+ hex2 cb) +:+ DQ
  +:+ (if (ca =? 255)%N then EmptyString
       else " fill-opacity=" +:+ DQ +:+ opacity_text ca +:+ DQ)
  +:+ "/>" +:+ NL.

(** The character [c] does not occur in the text. *)
Fixpoint lacks (c : ascii) (s : string) : bool :=
  match s with
  | EmptyString => true
  | String d s' => negb (Ascii.eqb c d) && lacks c s'
  end.

(** Two images of one size that agree wherever a pixel is not fully
    transparent, and on which pixels are fully transparent. *)
Definition same_visible (img1 img2 : Image) : Prop :=
  width img1 = width img2 /\ height img1 = height img2
  /\ forall x y, x < width img1 -> y < height img1 ->
       alpha (pixels img1 x y) = alpha (pixels img2 x y)
       /\ (alpha (pixels img1 x y) <> 0%N -> pixels img1 x y = pixels img2 x y).

(** The file can be unlinked: a regular file that is not locked. *)
Definition unlinkable (o : option node) : bool :=
  match o with
  | Some (File _ false) => true
  | _ => false
  end.

(** What [Image.open] and then [convert("RGBA")] give for the file at
    [src]: the decoded image or the exception of the failing step. *)
Definition read_image {platform : Platform} (s : world) (src : path) : result pil_image :=
  match nodes s !! src with
  | Some (File data _) => pil_open data
  | Some Dir => Raise "Is a directory"
  | None => Raise "No such file or directory"
  end.

Definition decoded {platform : Platform} (s : world) (src : path) : result Image :=
  match read_image s src with
  | Ok im => pil_convert_rgba im
  | Raise e => Raise e
  end.

(** The world once [Image.open(src)] has been called. *)
Definition after_open (s : world) (src : path) : world :=
  {| nodes := nodes s; free := free s; opened := opened s ++ [src] |}.

(** The number of outcomes recorded. *)
Definition tally_size (t : tally) : nat :=
  length (converted t) + length (skipped t) + length (errors t).

(** The pixel is not fully transparent. *)
Definition visible (img : Image) (x y : nat) : bool :=
  negb (alpha (pixels img x y) =? 0)%N.

(** The order of the scan: by row, and inside a row from left to right
    without overlap. *)
Definition row_major (r1 r2 : Run) : Prop :=
  run_y r1 < run_y r2 \/ (run_y r1 = run_y r2 /\ run_before r1 r2).

(** The path [q] is what the given path [p] asks for: the resolved [p]
    when that is a file with a supported suffix; and, when the resolved [p]
    is a folder, the resolved path of every entry directly inside it whose
    own name has a supported suffix. *)
Definition wanted (resolve : path -> path) (s : world) (p q : path) : Prop :=
  (is_file s (resolve p) = true /\ q = resolve p /\ supported (resolve p) = true)
  \/ (is_dir s (resolve p) = true
      /\ exists entry,
           is_child (resolve p) entry = true /\ is_Some (nodes s !! entry)
           /\ supported entry = true /\ q = resolve entry).

(** The result and the world of a computation on an open file. *)
Definition settled (r : result unit * string * world) : result unit * world :=
  (r.1.1, r.2).

(** ** Sample data *)

(** Three pixels in a row: two opaque red ones and a half transparent
    green one. *)
Definition sample_image : Image :=
  {| width := 3; height := 1;
     pixels := fun x _ =>
       if x <? 2 then (255, 0, 0, 255)%N else (0, 255, 0, 128)%N |}.

(** Red, nothing, red: two runs of one colour that do not touch. *)
Definition gap_image : Image :=
  {| width := 3; height := 1;
     pixels := fun x _ =>
       if x =? 1 then (0, 0, 0, 0)%N else (255, 0, 0, 255)%N |}.

(** One fully transparent pixel, red or blue underneath. *)
Definition ghost_red : Image :=
  {| width := 1; height := 1; pixels := fun _ _ => (255, 0, 0, 0)%N |}.
Definition ghost_blue : Image :=
  {| width := 1; height := 1; pixels := fun _ _ => (0, 0, 255, 0)%N |}.

(** One grey pixel, with two accessors that differ outside of the image. *)
Definition grey_image : Image :=
  {| width := 1; height := 1; pixels := fun _ _ => (7, 7, 7, 255)%N |}.
Definition grey_image' : Image :=
  {| width := 1; height := 1;
     pixels := fun x y =>
       if (x =? 0) && (y =? 0) then (7, 7, 7, 255)%N else (1, 2, 3, 4)%N |}.

(** A platform whose decoder refuses the file content [bad], fails in the
    conversion of the content [trunc] and reads [sample_image] otherwise. *)
Definition sample_platform : Platform :=
  {| BASE_DIR := ["app"];
     pil_image := string;
     pil_open := fun data =>
       if String.eqb data "bad" then Raise "cannot identify image file" else Ok data;
     pil_convert_rgba := fun data =>
       if String.eqb data "trunc" then Raise "image file is truncated"
       else Ok sample_image;
     buffer_size := 8 * 1024 |}.

(** The same platform with a buffer of 64 bytes, which the writes of
    [sample_image] fill more than once. *)
Definition small_buffer_platform : Platform :=
  {| BASE_DIR := ["app"];
     pil_image := string;
     pil_open := fun data =>
       if String.eqb data "bad" then Raise "cannot identify image file" else Ok data;
     pil_convert_rgba := fun data =>
       if String.eqb data "trunc" then Raise "image file is truncated"
       else Ok sample_image;
     buffer_size := 64 |}.

Definition sample_nodes : gmap path node :=
  <[ ["app"; "converted_svgs"] := Dir ]>
  (<[ ["app"] := Dir ]>
  (<[ ["in"; "a.png"] := File "pixels" false ]>
  (<[ ["in"; "b.png"] := File "bad" false ]>
  (<[ ["in"; "c.png"] := File "trunc" false ]>
  (<[ ["in"] := Dir ]>
  (<[ [] := Dir ]> ∅)))))).

Definition sample_world : world :=
  {| nodes := sample_nodes; free := 1000; opened := [] |}.

(** The same files on a disk that is nearly full. *)
Definition full_world : world :=
  {| nodes := sample_nodes; free := 50; opened := [] |}.

(** An output is there for [gone.png], which is not. *)
Definition stale_world : world :=
  {| nodes := <[ ["app"; "converted_svgs"; "gone.svg"] := File "old" false ]> sample_nodes;
     free := 1000; opened := [] |}.

(** An output directory with a file, a locked file and a subdirectory that
    holds a file. *)
Definition cluttered_world : world :=
  {| nodes :=
       <[ ["app"; "converted_svgs"; "a.svg"] := File "a" false ]>
       (<[ ["app"; "converted_svgs"; "b.svg"] := File "b" true ]>
       (<[ ["app"; "converted_svgs"; "sub"] := Dir ]>
       (<[ ["app"; "converted_svgs"; "sub"; "c.svg"] := File "c" false ]>
        sample_nodes)));
     free := 1000; opened := [] |}.

(** A folder of pictures: an image with an upper-case suffix, a text file,
    a hidden file, a directory named like an image, and an image outside. *)
Definition picture_world : world :=
  {| nodes :=
       <[ ["pics"] := Dir ]>
       (<[ ["pics"; "A.PNG"] := File "a" false ]>
       (<[ ["pics"; "notes.txt"] := File "n" false ]>
       (<[ ["pics"; ".png"] := File "h" false ]>
       (<[ ["pics"; "album.jpg"] := Dir ]>
       (<[ ["pics"; "album.jpg"; "in.gif"] := File "g" false ]>
       (<[ ["solo.webp"] := File "s" false ]>
       (<[ [] := Dir ]> ∅)))))));
     free := 0; opened := [] |}.

(** The folder of pictures with two symbolic links in it: [link.txt] points
    to the image [A.PNG], and [shot.png] to the text file [notes.txt]. *)
Definition linked_world : world :=
  {| nodes :=
       <[ ["pics"; "link.txt"] := File "a" false ]>
       (<[ ["pics"; "shot.png"] := File "n" false ]> (nodes picture_world));
     free := 0; opened := [] |}.

Definition link_resolve (p : path) : path :=
  if bool_decide (p = ["pics"; "link.txt"]) then ["pics"; "A.PNG"]
  else if bool_decide (p = ["pics"; "shot.png"]) then ["pics"; "notes.txt"]
  else p.

(** Two inputs that share a stem. *)
Definition twin_world : world :=
  {| nodes := <[ ["in"; "a.jpg"] := File "other pixels" false ]> sample_nodes;
     free := 1000; opened := [] |}.

(** The output directory is a regular file. *)
Definition blocked_world : world :=
  {| nodes := <[ ["app"; "converted_svgs"] := File "not a folder" false ]> sample_nodes;
     free := 1000; opened := [] |}.

(** * Facts about the encoder *)

Lemma rgba_eqb_eq (p q : rgba) : rgba_eqb p q = true <-> p = q.
Proof.
  destruct p as [[[r1 g1] b1] a1], q as [[[r2 g2] b2] a2]; simpl.
  rewrite !andb_true_iff, !N.eqb_eq. split.
  - intros [[[-> ->] ->] ->]; reflexivity.
  - intros [= -> -> -> ->]; auto.
Qed.

Lemma rgba_eqb_neq (p q : rgba) : rgba_eqb p q = false <-> p <> q.
Proof.
  rewrite <- rgba_eqb_eq. destruct (rgba_eqb p q); intuition congruence.
Qed.

Section ScanFacts.
Variable px : nat -> nat -> rgba.
Variable w y : nat.

(** *** The inner loop *)

Lemma run_end_ge fuel c x : x <= run_end px w y fuel c x.
Proof.
  revert x; induction fuel as [|k IH]; intros x; simpl; [lia|].
  destruct (_ && _); [specialize (IH (x + 1)); lia | lia].
Qed.

Lemma run_end_le fuel c x : x <= w -> run_end px w y fuel c x <= w.
Proof.
  revert x; induction fuel as [|k IH]; intros x Hx; simpl; [lia|].
  destruct (x <? w) eqn:E; simpl; [|lia].
  apply Nat.ltb_lt in E.
  destruct (rgba_eqb _ _); [apply IH; lia | lia].
Qed.

Lemma run_end_same fuel c x i :
  x <= i < run_end px w y fuel c x -> px i y = c.
Proof.
  revert x; induction fuel as [|k IH]; intros x Hi; simpl in Hi; [lia|].
  destruct (x <? w) eqn:E; simpl in Hi; [|lia].
  destruct (rgba_eqb (px x y) c) eqn:Ec; [|lia].
  apply rgba_eqb_eq in Ec.
  destruct (decide (i = x)) as [->|Hne]; [assumption|].
  apply (IH (x + 1)); lia.
Qed.

(** With enough iterations the loop stops at the row's end or at a pixel
    of another colour. *)
Lemma run_end_stop fuel c x :
  w - x <= fuel ->
  w <= run_end px w y fuel c x \/ px (run_end px w y fuel c x) y <> c.
Proof.
  revert x; induction fuel as [|k IH]; intros x Hf; simpl.
  - left; lia.
  - destruct (x <? w) eqn:E; simpl.
    + destruct (rgba_eqb (px x y) c) eqn:Ec.
      * apply IH. apply Nat.ltb_lt in E. lia.
      * right. now apply rgba_eqb_neq.
    + left. apply Nat.ltb_ge in E. lia.
Qed.

Lemma run_end_fuel f1 f2 c x :
  w - x <= f1 -> w - x <= f2 -> run_end px w y f1 c x = run_end px w y f2 c x.
Proof.
  revert f2 x; induction f1 as [|k IH]; intros [|k2] x H1 H2; simpl; try reflexivity.
  - replace (x <? w) with false by (symmetry; apply Nat.ltb_ge; lia). reflexivity.
  - replace (x <? w) with false by (symmetry; apply Nat.ltb_ge; lia). reflexivity.
  - destruct (x <? w) eqn:E; simpl; [|reflexivity].
    apply Nat.ltb_lt in E.
    destruct (rgba_eqb _ _); [apply IH; lia | reflexivity].
Qed.

Lemma run_end_step k c x :
  run_end px w y (S k) c x
  = if (x <? w) && rgba_eqb (px x y) c then run_end px w y k c (x + 1) else x.
Proof. reflexivity. Qed.

(** The equation of the inner [while]. *)
Lemma run_end_unfold fuel c x :
  w - x <= fuel ->
  run_end px w y fuel c x
  = if (x <? w) && rgba_eqb (px x y) c then run_end px w y fuel c (x + 1) else x.
Proof.
  intros Hf. destruct fuel as [|k].
  - simpl. replace (x <? w) with false by (symmetry; apply Nat.ltb_ge; lia). reflexivity.
  - rewrite (run_end_step k c x).
    destruct (x <? w) eqn:E; simpl andb; [|reflexivity].
    apply Nat.ltb_lt in E.
    destruct (rgba_eqb _ _); [|reflexivity].
    apply run_end_fuel; lia.
Qed.

(** *** The row loop *)

Lemma scan_row_step k x :
  scan_row px w y (S k) x
  = if x <? w then
      if (alpha (px x y) =? 0)%N then scan_row px w y k (x + 1)
      else run_at px w y x :: scan_row px w y k (run_end px w y w (px x y) (x + 1))
    else [].
Proof.
  simpl. unfold run_at, alpha.
  destruct (x <? w); [|reflexivity].
  destruct (px x y) as [[[r g] b] a]; simpl.
  destruct (a =? 0)%N; reflexivity.
Qed.

Lemma scan_row_fuel f1 f2 x :
  w - x <= f1 -> w - x <= f2 -> scan_row px w y f1 x = scan_row px w y f2 x.
Proof.
  revert f2 x; induction f1 as [|k IH]; intros [|k2] x H1 H2; try reflexivity.
  - rewrite scan_row_step.
    replace (x <? w) with false by (symmetry; apply Nat.ltb_ge; lia). reflexivity.
  - rewrite scan_row_step.
    replace (x <? w) with false by (symmetry; apply Nat.ltb_ge; lia). reflexivity.
  - rewrite !scan_row_step.
    destruct (x <? w) eqn:E; [|reflexivity].
    apply Nat.ltb_lt in E.
    pose proof (run_end_ge w (px x y) (x + 1)) as Hge.
    destruct (alpha (px x y) =? 0)%N.
    + apply IH; lia.
    + f_equal. apply IH; lia.
Qed.

(** The equation of the outer [while]: the model has iterations enough. *)
Lemma scan_row_unfold fuel x :
  w - x <= fuel ->
  scan_row px w y fuel x
  = if x <? w then
      if (alpha (px x y) =? 0)%N then scan_row px w y fuel (x + 1)
      else run_at px w y x :: scan_row px w y fuel (run_end px w y w (px x y) (x + 1))
    else [].
Proof.
  intros Hf. destruct fuel as [|k].
  - simpl. replace (x <? w) with false by (symmetry; apply Nat.ltb_ge; lia). reflexivity.
  - rewrite scan_row_step.
    destruct (x <? w) eqn:E; [|reflexivity].
    apply Nat.ltb_lt in E.
    pose proof (run_end_ge w (px x y) (x + 1)) as Hge.
    destruct (alpha (px x y) =? 0)%N.
    + apply scan_row_fuel; lia.
    + f_equal. apply scan_row_fuel; lia.
Qed.

Lemma run_ok_weaken lo lo' r : lo' <= lo -> run_ok px w y lo r -> run_ok px w y lo' r.
Proof. unfold run_ok. intros ? (? & ? & ? & ? & ? & ?). repeat split; auto; lia. Qed.

Lemma run_at_ok x :
  x < w -> alpha (px x y) <> 0%N -> run_ok px w y x (run_at px w y x).
Proof.
  intros Hx Ha.
  pose proof (run_end_ge w (px x y) (x + 1)) as Hge.
  pose proof (run_end_le w (px x y) (x + 1)) as Hle.
  unfold run_ok, run_at, spans; simpl.
  repeat split; try lia; try assumption.
  intros i Hi. apply andb_true_iff in Hi as [H1 H2].
  apply Nat.leb_le in H1. apply Nat.ltb_lt in H2.
  destruct (decide (i = x)) as [->|Hne]; [reflexivity|].
  apply (run_end_same w (px x y) (x + 1)). lia.
Qed.

Lemma run_at_end x :
  run_start (run_at px w y x) + run_len (run_at px w y x) = run_end px w y w (px x y) (x + 1).
Proof.
  pose proof (run_end_ge w (px x y) (x + 1)). unfold run_at; simpl. lia.
Qed.

Lemma scan_row_ok fuel x : Forall (run_ok px w y x) (scan_row px w y fuel x).
Proof.
  revert x; induction fuel as [|k IH]; intros x; [constructor|].
  rewrite scan_row_step.
  destruct (x <? w) eqn:E; [|constructor].
  apply Nat.ltb_lt in E.
  destruct (alpha (px x y) =? 0)%N eqn:Ea.
  - eapply Forall_impl; [apply IH|]. intros r; apply run_ok_weaken; lia.
  - apply N.eqb_neq in Ea. constructor; [apply run_at_ok; assumption|].
    eapply Forall_impl; [apply IH|]. intros r; apply run_ok_weaken.
    pose proof (run_end_ge w (px x y) (x + 1)). lia.
Qed.

Lemma scan_row_sorted fuel x : StronglySorted run_before (scan_row px w y fuel x).
Proof.
  revert x; induction fuel as [|k IH]; intros x; [constructor|].
  rewrite scan_row_step.
  destruct (x <? w); [|constructor].
  destruct (alpha (px x y) =? 0)%N; [apply IH|].
  constructor; [apply IH|].
  eapply Forall_impl; [apply scan_row_ok|].
  intros r (_ & Hlo & _). unfold run_before. rewrite run_at_end. exact Hlo.
Qed.

Lemma span_count_cons r runs i :
  span_count (r :: runs) i = (if spans r i then 1 else 0) + span_count runs i.
Proof.
  unfold span_count. simpl. destruct (spans r i); reflexivity.
Qed.

Lemma span_count_below lo runs i :
  Forall (run_ok px w y lo) runs -> i < lo -> span_count runs i = 0.
Proof.
  induction 1 as [|r runs Hr _ IH]; intros Hi; [reflexivity|].
  rewrite span_count_cons, IH by assumption.
  destruct Hr as (_ & Hlo & _).
  unfold spans. replace (run_start r <=? i) with false; [reflexivity|].
  symmetry; apply Nat.leb_gt; lia.
Qed.

(** Every column from [x] on is in no run when its pixel is transparent
    and in exactly one run otherwise. *)
Lemma scan_row_count fuel x i :
  w - x <= fuel -> x <= i < w ->
  span_count (scan_row px w y fuel x) i
  = if (alpha (px i y) =? 0)%N then 0 else 1.
Proof.
  revert x; induction fuel as [|k IH]; intros x Hf Hi; [lia|].
  rewrite scan_row_step.
  replace (x <? w) with true by (symmetry; apply Nat.ltb_lt; lia).
  pose proof (run_end_ge w (px x y) (x + 1)) as Hge.
  destruct (alpha (px x y) =? 0)%N eqn:Ea.
  - destruct (decide (i = x)) as [->|Hne].
    + rewrite Ea. eapply span_count_below; [apply scan_row_ok|lia].
    + apply IH; lia.
  - rewrite span_count_cons.
    destruct (spans (run_at px w y x) i) eqn:Es.
    + assert (Hc : px i y = px x y).
      { apply N.eqb_neq in Ea.
        destruct (run_at_ok x) as (_ & _ & _ & _ & _ & Hsame); [lia|assumption|].
        apply (Hsame i Es). }
      rewrite Hc, Ea.
      unfold spans in Es. apply andb_true_iff in Es as [_ Es].
      apply Nat.ltb_lt in Es. rewrite run_at_end in Es.
      erewrite span_count_below; [reflexivity|apply scan_row_ok|lia].
    + unfold spans in Es. rewrite run_at_end in Es. simpl in Es.
      apply andb_false_iff in Es as [Es|Es].
      * apply Nat.leb_gt in Es. lia.
      * apply Nat.ltb_ge in Es. simpl. apply IH; lia.
Qed.

(** The first run written from column [x] starts on a pixel of its
    colour, at [x] or further. *)
Lemma scan_row_head fuel x r rs :
  scan_row px w y fuel x = r :: rs ->
  x <= run_start r /\ px (run_start r) y = run_color r.
Proof.
  revert x; induction fuel as [|k IH]; intros x; [discriminate|].
  rewrite scan_row_step.
  destruct (x <? w); [|discriminate].
  destruct (alpha (px x y) =? 0)%N.
  - intros H. apply IH in H. split; [lia|tauto].
  - intros [= <- _]. simpl. split; [lia|reflexivity].
Qed.

(** Two runs written one after the other that touch differ in colour. *)
Lemma scan_row_maximal fuel x l1 r1 r2 l2 :
  scan_row px w y fuel x = l1 ++ r1 :: r2 :: l2 ->
  run_start r1 + run_len r1 = run_start r2 ->
  run_color r1 <> run_color r2.
Proof.
  revert x l1; induction fuel as [|k IH]; intros x l1; [destruct l1; discriminate|].
  rewrite scan_row_step.
  destruct (x <? w) eqn:E; [|destruct l1; discriminate].
  apply Nat.ltb_lt in E.
  destruct (alpha (px x y) =? 0)%N; [apply IH|].
  destruct l1 as [|r l1]; simpl.
  - intros [= <- Hrest] Htouch.
    rewrite run_at_end in Htouch.
    pose proof (scan_row_ok k (run_end px w y w (px x y) (x + 1))) as Hok.
    rewrite Hrest in Hok. apply Forall_cons in Hok as [Hok _].
    destruct Hok as (_ & _ & Hlen & Hw & _).
    destruct (scan_row_head _ _ _ _ Hrest) as [_ Hcol].
    destruct (run_end_stop w (px x y) (x + 1)) as [Hstop|Hstop]; [lia|lia|].
    simpl. rewrite <- Hcol, <- Htouch. congruence.
  - intros [= _ Hrest]. eapply IH; eassumption.
Qed.
End ScanFacts.

(** *** The pixels the loops read

    Two pixel accessors that agree on the visible pixels of row [y], and on
    which of its pixels are fully transparent, give the same runs. *)
Section ScanExt.
Variables px1 px2 : nat -> nat -> rgba.
Variable w y : nat.
Hypothesis Hvis : forall x, x < w ->
  alpha (px1 x y) = alpha (px2 x y)
  /\ (alpha (px1 x y) <> 0%N -> px1 x y = px2 x y).

Lemma rgba_eqb_visible x c :
  x < w -> alpha c <> 0%N -> rgba_eqb (px1 x y) c = rgba_eqb (px2 x y) c.
Proof.
  intros Hx Hc. destruct (Hvis x Hx) as [Ha Hp].
  destruct (N.eq_dec (alpha (px1 x y)) 0%N) as [Hz|Hnz].
  - transitivity false; [|symmetry]; apply rgba_eqb_neq; intros Heq; subst c; congruence.
  - rewrite (Hp Hnz). reflexivity.
Qed.

Lemma run_end_ext fuel c x :
  alpha c <> 0%N -> run_end px1 w y fuel c x = run_end px2 w y fuel c x.
Proof.
  intros Hc. revert x; induction fuel as [|k IH]; intros x; [reflexivity|].
  rewrite !run_end_step.
  destruct (x <? w) eqn:E; [|reflexivity].
  apply Nat.ltb_lt in E. rewrite (rgba_eqb_visible x c E Hc), IH. reflexivity.
Qed.

Lemma scan_row_ext fuel x : scan_row px1 w y fuel x = scan_row px2 w y fuel x.
Proof.
  revert x; induction fuel as [|k IH]; intros x; [reflexivity|].
  rewrite !scan_row_step.
  destruct (x <? w) eqn:E; [|reflexivity].
  apply Nat.ltb_lt in E. destruct (Hvis x E) as [Ha Hp]. rewrite <- Ha.
  destruct (alpha (px1 x y) =? 0)%N eqn:Ea; [apply IH|].
  apply N.eqb_neq in Ea. specialize (Hp Ea).
  unfold run_at. rewrite <- Hp, (run_end_ext w (px1 x y) (x + 1) Ea), IH.
  reflexivity.
Qed.
End ScanExt.

Lemma flat_map_ext_seq {A : Type} (f g : nat -> list A) (n : nat) :
  (forall y, y < n -> f y = g y) -> flat_map f (seq 0 n) = flat_map g (seq 0 n).
Proof.
  intros H. rewrite !flat_map_concat_map. f_equal.
  apply map_ext_in. intros y Hy. apply in_seq in Hy. apply H. lia.
Qed.

Lemma encode_ext (img1 img2 : Image) :
  same_visible img1 img2 -> encode img1 = encode img2.
Proof.
  intros (Hw & Hh & Hpx). unfold encode. rewrite <- Hh.
  apply flat_map_ext_seq. intros y Hy. unfold row_runs. rewrite <- Hw.
  apply scan_row_ext. intros x Hx. apply Hpx; assumption.
Qed.

Lemma svg_text_ext (img1 img2 : Image) :
  same_visible img1 img2 -> svg_text img1 = svg_text img2.
Proof.
  intros H. unfold svg_text, svg_writes.
  rewrite (encode_ext img1 img2 H). destruct H as (-> & -> & _). reflexivity.
Qed.

(** *** The runs of an image *)

Lemma elem_encode (img : Image) (r : Run) :
  In r (encode img) <-> exists y, y < height img /\ In r (row_runs img y).
Proof.
  unfold encode. rewrite in_flat_map. split.
  - intros (y & Hy & Hr). apply in_seq in Hy. exists y. split; [lia|assumption].
  - intros (y & Hy & Hr). exists y. split; [apply in_seq; lia|assumption].
Qed.

Lemma row_runs_ok (img : Image) (y : nat) :
  Forall (run_ok (pixels img) (width img) y 0) (row_runs img y).
Proof. apply scan_row_ok. Qed.

(** A run of the image lies inside it, is at least one pixel long, is not
    fully transparent and has the colour of every pixel it spans. *)
Lemma encode_sound (img : Image) (r : Run) :
  In r (encode img) ->
  run_y r < height img /\ 1 <= run_len r
  /\ run_start r + run_len r <= width img
  /\ alpha (run_color r) <> 0%N
  /\ forall x, spans r x = true -> pixels img x (run_y r) = run_color r.
Proof.
  intros Hr. apply elem_encode in Hr as (y & Hy & Hr).
  pose proof (row_runs_ok img y) as Hok.
  rewrite List.Forall_forall in Hok. destruct (Hok r Hr) as (Hry & _ & Hlen & Hw & Ha & Hsame).
  rewrite Hry. auto.
Qed.

(** A visible pixel lies in the span of a run of its row. *)
Lemma encode_complete (img : Image) (x y : nat) :
  x < width img -> y < height img -> alpha (pixels img x y) <> 0%N ->
  exists r, In r (encode img) /\ run_y r = y /\ spans r x = true.
Proof.
  intros Hx Hy Ha.
  pose proof (scan_row_count (pixels img) (width img) y (width img) 0 x) as Hc.
  fold (row_runs img y) in Hc.
  replace (alpha (pixels img x y) =? 0)%N with false in Hc
    by (symmetry; apply N.eqb_neq; assumption).
  specialize (Hc ltac:(lia) ltac:(lia)).
  unfold span_count in Hc.
  destruct (List.filter (fun r => spans r x) (row_runs img y)) as [|r l] eqn:Ef; [discriminate|].
  assert (Hin : In r (List.filter (fun r => spans r x) (row_runs img y)))
    by (rewrite Ef; left; reflexivity).
  apply filter_In in Hin as [Hin Hs].
  exists r. split; [apply elem_encode; eauto|]. split; [|assumption].
  pose proof (row_runs_ok img y) as Hok. rewrite List.Forall_forall in Hok.
  destruct (Hok r Hin) as (Hry & _). exact Hry.
Qed.

(** * Facts about texts and numbers *)

Lemma str_app_nil_l (a : string) : EmptyString +:+ a = a.
Proof. reflexivity. Qed.

Lemma str_app_cons (x : ascii) (a b : string) :
  String x a +:+ b = String x (a +:+ b).
Proof. reflexivity. Qed.

Lemma str_app_assoc (a b c : string) : (a +:+ b) +:+ c = a +:+ (b +:+ c).
Proof.
  induction a as [|x a IH]; [reflexivity|].
  rewrite !str_app_cons. now rewrite IH.
Qed.

Lemma str_app_nil_r (a : string) : a +:+ EmptyString = a.
Proof.
  induction a as [|x a IH]; [reflexivity|].
  rewrite str_app_cons. now rewrite IH.
Qed.

Lemma str_length_app (a b : string) :
  String.length (a +:+ b) = String.length a + String.length b.
Proof.
  induction a as [|x a IH]; [reflexivity|].
  rewrite str_app_cons. simpl. now rewrite IH.
Qed.

Lemma concat_str_app (l1 l2 : list string) :
  concat_str (l1 ++ l2) = concat_str l1 +:+ concat_str l2.
Proof.
  induction l1 as [|a l1 IH]; [reflexivity|].
  change (concat_str ((a :: l1) ++ l2)) with (a +:+ concat_str (l1 ++ l2)).
  change (concat_str (a :: l1)) with (a +:+ concat_str l1).
  now rewrite IH, str_app_assoc.
Qed.

Lemma expect_app (lit s : string) : expect lit (lit +:+ s) = Some s.
Proof.
  induction lit as [|c lit IH]; [reflexivity|].
  rewrite str_app_cons. cbn [expect]. now rewrite Ascii.eqb_refl.
Qed.

Lemma lacks_app (c : ascii) (a b : string) :
  lacks c (a +:+ b) = lacks c a && lacks c b.
Proof.
  induction a as [|x a IH]; [reflexivity|].
  rewrite str_app_cons. cbn [lacks]. now rewrite IH, andb_assoc.
Qed.

Lemma until_dq_app (v s : string) :
  lacks (ascii_of_nat 34) v = true ->
  until_dq (v +:+ String (ascii_of_nat 34) s) = Some (v, s).
Proof.
  induction v as [|c v IH]; intros Hv.
  - reflexivity.
  - cbn [lacks] in Hv. apply andb_true_iff in Hv as [Hc Hv].
    rewrite str_app_cons. cbn [until_dq]. rewrite Ascii.eqb_sym.
    apply negb_true_iff in Hc. rewrite Hc, (IH Hv). reflexivity.
Qed.

Lemma until_dot_app (v s : string) :
  lacks "."%char v = true ->
  until_dot (v +:+ String "."%char s) = Some (v, s).
Proof.
  induction v as [|c v IH]; intros Hv.
  - reflexivity.
  - cbn [lacks] in Hv. apply andb_true_iff in Hv as [Hc Hv].
    rewrite str_app_cons. cbn [until_dot]. rewrite Ascii.eqb_sym.
    apply negb_true_iff in Hc. rewrite Hc, (IH Hv). reflexivity.
Qed.

Lemma attr_app (key v s : string) :
  lacks (ascii_of_nat 34) v = true ->
  attr key (key +:+ "=" +:+ DQ +:+ v +:+ DQ +:+ s) = Some (v, s).
Proof.
  intros Hv. unfold attr.
  replace (key +:+ "=" +:+ DQ +:+ v +:+ DQ +:+ s)
    with ((key +:+ "=" +:+ DQ) +:+ (v +:+ String (ascii_of_nat 34) s))
    by (rewrite !str_app_assoc; reflexivity).
  rewrite expect_app. cbn [mbind option_bind]. now apply until_dq_app.
Qed.

(** *** Decimal numbers *)

Lemma digit_val_char (d : N) : (d < 10)%N -> digit_val (digit_char d) = Some d.
Proof.
  intros Hd. unfold digit_val, digit_char.
  rewrite N_ascii_embedding by lia.
  replace (48 <=? 48 + d)%N with true by (symmetry; apply N.leb_le; lia).
  replace (48 + d <=? 57)%N with true by (symmetry; apply N.leb_le; lia).
  simpl. f_equal. lia.
Qed.

Lemma digits_val_app (a : N) (s1 s2 : string) :
  digits_val a (s1 +:+ s2) = (v ← digits_val a s1; digits_val v s2).
Proof.
  revert a; induction s1 as [|c s1 IH]; intros a; [reflexivity|].
  rewrite str_app_cons. cbn [digits_val].
  destruct (digit_val c); simpl; [apply IH|reflexivity].
Qed.

(** The digits [dec_go] puts before [acc] read back as [n]. *)
Lemma dec_go_digits (fuel : nat) (n : N) (acc : string) :
  (Z.of_N n < 2 ^ Z.of_nat fuel)%Z -> 0 < fuel ->
  exists ds, dec_go fuel n acc = ds +:+ acc
             /\ digits_val 0 ds = Some n /\ ds <> EmptyString.
Proof.
  revert n acc; induction fuel as [|k IH]; intros n acc Hn Hk; [lia|].
  cbn [dec_go].
  assert (Hmod : (n mod 10 < 10)%N) by (apply N.mod_lt; lia).
  destruct (n / 10 =? 0)%N eqn:Eq.
  - apply N.eqb_eq in Eq.
    exists (String (digit_char (n mod 10)) EmptyString). split; [reflexivity|].
    split; [|discriminate].
    cbn [digits_val]. rewrite digit_val_char by assumption. simpl. f_equal.
    pose proof (N.div_mod n 10 ltac:(lia)). lia.
  - apply N.eqb_neq in Eq.
    assert (Hdiv : (Z.of_N (n / 10) < 2 ^ Z.of_nat k)%Z).
    { rewrite Nat2Z.inj_succ, Z.pow_succ_r in Hn by lia.
      rewrite N2Z.inj_div. change (Z.of_N 10) with 10%Z.
      pose proof (N2Z.is_nonneg n).
      apply Z.div_lt_upper_bound; lia. }
    assert (Hk' : 0 < k).
    { destruct k; [|lia]. exfalso.
      change (2 ^ Z.of_nat 0)%Z with 1%Z in Hdiv.
      pose proof (N2Z.is_nonneg (n / 10)). lia. }
    destruct (IH (n / 10)%N (String (digit_char (n mod 10)) acc) Hdiv Hk')
      as (ds & Hds & Hval & Hne).
    exists (ds +:+ String (digit_char (n mod 10)) EmptyString).
    split; [rewrite Hds, str_app_assoc; reflexivity|]. split.
    + rewrite digits_val_app, Hval. cbn [mbind option_bind digits_val].
      rewrite digit_val_char by assumption. simpl. f_equal.
      pose proof (N.div_mod n 10 ltac:(lia)). lia.
    + destruct ds; [congruence|discriminate].
Qed.

Lemma size_nat_bound (n : N) : (Z.of_N n < 2 ^ Z.of_nat (S (N.size_nat n)))%Z.
Proof.
  destruct n as [|p]; [reflexivity|].
  apply Zpower2_Psize. simpl. lia.
Qed.

Lemma read_N_str (n : N) : read_N (str_N n) = Some n.
Proof.
  unfold str_N.
  destruct (dec_go_digits (S (N.size_nat n)) n EmptyString (size_nat_bound n) ltac:(lia))
    as (ds & -> & Hval & Hne).
  rewrite str_app_nil_r. unfold read_N. destruct ds; [congruence|assumption].
Qed.

Lemma read_nat_str (n : nat) : read_nat (str_nat n) = Some n.
Proof.
  unfold read_nat, str_nat. rewrite read_N_str. simpl. now rewrite Nat2N.id.
Qed.

(** A text that reads as a number has digits only. *)
Lemma digits_val_lacks (c : ascii) (s : string) (a v : N) :
  digits_val a s = Some v -> digit_val c = None -> lacks c s = true.
Proof.
  intros Hs Hc. revert a Hs; induction s as [|d s IH]; intros a Hs; [reflexivity|].
  cbn [digits_val] in Hs. cbn [lacks].
  destruct (digit_val d) as [dv|] eqn:Ed; [|discriminate].
  cbn [mbind option_bind] in Hs. rewrite (IH _ Hs), andb_true_r.
  apply negb_true_iff, Ascii.eqb_neq. congruence.
Qed.

Lemma str_nat_lacks (c : ascii) (n : nat) :
  digit_val c = None -> lacks c (str_nat n) = true.
Proof.
  intros Hc. pose proof (read_N_str (N.of_nat n)) as H.
  unfold read_N in H. fold (str_nat n) in H.
  destruct (str_nat n) eqn:E; [reflexivity|].
  eapply digits_val_lacks; eassumption.
Qed.

(** *** Bytes: the 256 cases *)

Lemma below_256 (P : N -> bool) :
  forallb P (map N.of_nat (seq 0 256)) = true ->
  forall n, (n < 256)%N -> P n = true.
Proof.
  intros H n Hn. rewrite forallb_forall in H. apply H.
  apply in_map_iff. exists (N.to_nat n). split; [apply N2Nat.id|].
  apply in_seq. lia.
Qed.

Lemma fmt_02X_hex2 (n : N) : (n < 256)%N -> fmt_02X n = hex2 n.
Proof.
  intros Hn. apply String.eqb_eq. revert n Hn.
  apply (below_256 (fun n => String.eqb (fmt_02X n) (hex2 n))).
  vm_compute. reflexivity.
Qed.

Lemma read_hex2_hex (n : N) :
  (n < 256)%N ->
  read_hex2 (upper_hex_digit (n / 16)) (upper_hex_digit (n mod 16)) = Some n.
Proof.
  intros Hn.
  assert (H : match read_hex2 (upper_hex_digit (n / 16)) (upper_hex_digit (n mod 16)) with
              | Some m => (m =? n)%N
              | None => false
              end = true).
  { revert n Hn.
    apply (below_256 (fun n =>
             match read_hex2 (upper_hex_digit (n / 16)) (upper_hex_digit (n mod 16)) with
             | Some m => (m =? n)%N
             | None => false
             end)).
    vm_compute. reflexivity. }
  destruct (read_hex2 _ _); [|discriminate].
  apply N.eqb_eq in H. now subst.
Qed.

Lemma hex2_lacks_dq (n : N) :
  (n < 256)%N -> lacks (ascii_of_nat 34) (hex2 n) = true.
Proof.
  revert n. apply (below_256 (fun n => lacks (ascii_of_nat 34) (hex2 n))).
  vm_compute. reflexivity.
Qed.

Lemma read_fill_hex (r g b : N) :
  (r < 256)%N -> (g < 256)%N -> (b < 256)%N ->
  read_fill ("#" +:+ hex2 r +:+ hex2 g +:+ hex2 b) = Some (r, g, b).
Proof.
  intros Hr Hg Hb. unfold hex2.
  rewrite !str_app_cons, !str_app_nil_l. cbn [read_fill].
  rewrite !read_hex2_hex by assumption. reflexivity.
Qed.

Lemma fill_lacks_dq (r g b : N) :
  (r < 256)%N -> (g < 256)%N -> (b < 256)%N ->
  lacks (ascii_of_nat 34) ("#" +:+ hex2 r +:+ hex2 g +:+ hex2 b) = true.
Proof.
  intros Hr Hg Hb. rewrite !lacks_app, !hex2_lacks_dq by assumption. reflexivity.
Qed.

(** The float quotient [a / 255.0] and its [%.6f] text, for each alpha: the
    text is the exactly rounded quotient, it has six decimals, and it reads
    back as [a]. *)
Lemma opacity_bytes :
  forallb
    (fun a =>
       if (a =? 255)%N
       then negb (PrimFloat.ltb (snd (rgba_to_svg_fill 0 0 0 a)) 1%float)
       else
         PrimFloat.ltb (snd (rgba_to_svg_fill 0 0 0 a)) 1%float
         && String.eqb (fmt_6f (snd (rgba_to_svg_fill 0 0 0 a))) (opacity_text a)
         && match read_opacity (opacity_text a) with
            | Some v => (v =? a)%N
            | None => false
            end
         && lacks (ascii_of_nat 34) (opacity_text a)
         && (String.length (opacity_text a) =? 8))
    (map N.of_nat (seq 0 256)) = true.
Proof. vm_compute. reflexivity. Qed.

Lemma opacity_of_fill (r g b a : N) :
  snd (rgba_to_svg_fill r g b a) = snd (rgba_to_svg_fill 0 0 0 a).
Proof. reflexivity. Qed.

Lemma opaque_not_below_one (r g b : N) :
  PrimFloat.ltb (snd (rgba_to_svg_fill r g b 255)) 1%float = false.
Proof. vm_compute. reflexivity. Qed.

Lemma opacity_facts (r g b a : N) :
  (a < 256)%N -> a <> 255%N ->
  PrimFloat.ltb (snd (rgba_to_svg_fill r g b a)) 1%float = true
  /\ fmt_6f (snd (rgba_to_svg_fill r g b a)) = opacity_text a
  /\ read_opacity (opacity_text a) = Some a
  /\ lacks (ascii_of_nat 34) (opacity_text a) = true
  /\ String.length (opacity_text a) = 8.
Proof.
  intros Ha Hne. rewrite (opacity_of_fill r g b a).
  pose proof (below_256 _ opacity_bytes a Ha) as H. cbv beta in H.
  replace (a =? 255)%N with false in H by (symmetry; apply N.eqb_neq; assumption).
  rewrite !andb_true_iff in H. destruct H as ((((H1 & H2) & H3) & H4) & H5).
  apply String.eqb_eq in H2. apply Nat.eqb_eq in H5.
  destruct (read_opacity (opacity_text a)) as [v|]; [|discriminate].
  apply N.eqb_eq in H3. subst v. auto.
Qed.

(** *** The text of one run *)

Lemma rect_writes_text (r : Run) :
  byte_rgba (run_color r) ->
  concat_str (rect_writes r) = rect_text r.
Proof.
  unfold byte_rgba, rect_writes, rect_open, rect_opacity, rect_text, rect_close.
  destruct (run_color r) as [[[cr cg] cb] ca]. intros (Hr & Hg & Hb & Ha).
  cbn [fst rgba_to_svg_fill].
  rewrite !fmt_02X_hex2 by assumption.
  destruct (ca =? 255)%N eqn:E.
  - apply N.eqb_eq in E. subst ca. rewrite opaque_not_below_one.
    cbn [concat_str fold_right app]. rewrite !str_app_assoc, str_app_nil_r. reflexivity.
  - apply N.eqb_neq in E.
    destruct (opacity_facts cr cg cb ca Ha E) as (H1 & H2 & _).
    rewrite H1, H2.
    cbn [concat_str fold_right app]. rewrite !str_app_assoc, str_app_nil_r. reflexivity.
Qed.

(** * Reading a written document back *)

(** The reader on an element whose attribute values hold no quote. *)
Lemma parse_rect_attrs (vx vy vw vh vf tail : string) :
  lacks (ascii_of_nat 34) vx = true -> lacks (ascii_of_nat 34) vy = true ->
  lacks (ascii_of_nat 34) vw = true -> lacks (ascii_of_nat 34) vh = true ->
  lacks (ascii_of_nat 34) vf = true ->
  parse_rect ("  <rect x=" +:+ DQ +:+ vx +:+ DQ
              +:+ " y=" +:+ DQ +:+ vy +:+ DQ
              +:+ " width=" +:+ DQ +:+ vw +:+ DQ
              +:+ " height=" +:+ DQ +:+ vh +:+ DQ
              +:+ " fill=" +:+ DQ +:+ vf +:+ DQ +:+ tail)
  = (x ← read_nat vx;
     y ← read_nat vy;
     w ← read_nat vw;
     h ← read_nat vh;
     '(r, g, b) ← read_fill vf;
     match attr " fill-opacity" tail with
     | Some (vo, s) =>
         a ← read_opacity vo;
         s ← expect rect_close s;
         Some ({| rect_x := x; rect_y := y; rect_width := w; rect_height := h;
                  rect_color := (r, g, b, a) |}, s)
     | None =>
         s ← expect rect_close tail;
         Some ({| rect_x := x; rect_y := y; rect_width := w; rect_height := h;
                  rect_color := (r, g, b, 255%N) |}, s)
     end).
Proof.
  intros Hx Hy Hw Hh Hf. unfold parse_rect.
  change ("  <rect x=" +:+ ?t) with ("  <rect" +:+ " x" +:+ "=" +:+ t).
  rewrite expect_app. cbn [mbind option_bind].
  rewrite (attr_app " x" vx _ Hx). cbn [mbind option_bind].
  change (" y=" +:+ ?t) with (" y" +:+ "=" +:+ t).
  rewrite (attr_app " y" vy _ Hy). cbn [mbind option_bind].
  change (" width=" +:+ ?t) with (" width" +:+ "=" +:+ t).
  rewrite (attr_app " width" vw _ Hw). cbn [mbind option_bind].
  change (" height=" +:+ ?t) with (" height" +:+ "=" +:+ t).
  rewrite (attr_app " height" vh _ Hh). cbn [mbind option_bind].
  change (" fill=" +:+ ?t) with (" fill" +:+ "=" +:+ t).
  rewrite (attr_app " fill" vf _ Hf). cbn [mbind option_bind].
  reflexivity.
Qed.

Lemma dq_not_digit : digit_val (ascii_of_nat 34) = None.
Proof. reflexivity. Qed.

(** The element written for a run reads back as the rectangle of the run. *)
Lemma parse_rect_text (r : Run) (tail : string) :
  byte_rgba (run_color r) -> alpha (run_color r) <> 0%N ->
  parse_rect (rect_text r +:+ tail) = Some (rect_of_run r, tail).
Proof.
  unfold byte_rgba, rect_text, rect_of_run, alpha.
  destruct (run_color r) as [[[cr cg] cb] ca]. cbn [snd].
  intros (Hr & Hg & Hb & Ha) Hnz.
  pose proof (fill_lacks_dq cr cg cb Hr Hg Hb) as Hfill.
  pose proof (read_fill_hex cr cg cb Hr Hg Hb) as Hread_fill.
  set (vf := "#" +:+ hex2 cr +:+ hex2 cg +:+ hex2 cb) in *.
  destruct (ca =? 255)%N eqn:E.
  - apply N.eqb_eq in E. subst ca.
    rewrite !str_app_assoc.
    rewrite parse_rect_attrs;
      try (apply str_nat_lacks, dq_not_digit); [|reflexivity|assumption].
    rewrite !read_nat_str. cbn [mbind option_bind].
    change (read_nat "1") with (Some 1). cbn [mbind option_bind].
    rewrite Hread_fill. cbn [mbind option_bind].
    rewrite str_app_nil_l.
    change ("/>" +:+ NL +:+ tail) with (rect_close +:+ tail).
    replace (attr " fill-opacity" (rect_close +:+ tail)) with (@None (string * string))
      by reflexivity.
    rewrite expect_app. reflexivity.
  - apply N.eqb_neq in E.
    destruct (opacity_facts cr cg cb ca Ha E) as (_ & _ & Hread & Hdq & _).
    set (vo := opacity_text ca) in *.
    rewrite !str_app_assoc.
    rewrite parse_rect_attrs;
      try (apply str_nat_lacks, dq_not_digit); [|reflexivity|assumption].
    rewrite !read_nat_str. cbn [mbind option_bind].
    change (read_nat "1") with (Some 1). cbn [mbind option_bind].
    rewrite Hread_fill. cbn [mbind option_bind].
    change (" fill-opacity=" +:+ ?t) with (" fill-opacity" +:+ "=" +:+ t).
    rewrite (attr_app " fill-opacity" vo _ Hdq).
    rewrite Hread. cbn [mbind option_bind].
    change ("/>" +:+ NL +:+ tail) with (rect_close +:+ tail).
    rewrite expect_app. reflexivity.
Qed.

Lemma rect_text_not_close (r : Run) (tail : string) :
  expect svg_close (rect_text r +:+ tail) = None.
Proof.
  unfold rect_text. destruct (run_color r) as [[[cr cg] cb] ca].
  rewrite !str_app_assoc. reflexivity.
Qed.

Lemma rect_text_length (r : Run) : 1 <= String.length (rect_text r).
Proof.
  unfold rect_text. destruct (run_color r) as [[[cr cg] cb] ca].
  rewrite str_length_app. simpl. lia.
Qed.

Lemma rects_length (runs : list Run) :
  length runs <= String.length (concat_str (map rect_text runs)).
Proof.
  induction runs as [|r runs IH]; [simpl; lia|].
  change (concat_str (map rect_text (r :: runs)))
    with (rect_text r +:+ concat_str (map rect_text runs)).
  rewrite str_length_app. pose proof (rect_text_length r). simpl. lia.
Qed.

(** The elements written for runs whose colours are made of bytes and are
    not fully transparent read back, up to the closing tag, as the
    rectangles of the runs. *)
Lemma parse_rects_text (runs : list Run) (fuel : nat) :
  length runs < fuel ->
  Forall (fun r => byte_rgba (run_color r) /\ alpha (run_color r) <> 0%N) runs ->
  parse_rects fuel (concat_str (map rect_text runs) +:+ svg_close)
  = Some (map rect_of_run runs).
Proof.
  revert fuel; induction runs as [|r runs IH]; intros fuel Hf Hok.
  - destruct fuel; [simpl in Hf; lia|reflexivity].
  - destruct fuel as [|k]; [simpl in Hf; lia|].
    apply Forall_cons in Hok as [[Hb Ha] Hok].
    change (concat_str (map rect_text (r :: runs)))
      with (rect_text r +:+ concat_str (map rect_text runs)).
    rewrite str_app_assoc. cbn [parse_rects].
    rewrite rect_text_not_close, parse_rect_text by assumption.
    cbn [mbind option_bind].
    rewrite IH by (simpl in Hf; lia || assumption).
    reflexivity.
Qed.

Lemma concat_rect_writes (runs : list Run) :
  Forall (fun r => byte_rgba (run_color r)) runs ->
  concat_str (flat_map rect_writes runs) = concat_str (map rect_text runs).
Proof.
  induction 1 as [|r runs Hr _ IH]; [reflexivity|].
  cbn [flat_map map]. rewrite concat_str_app, (rect_writes_text r Hr), IH.
  reflexivity.
Qed.

Lemma encode_bytes (img : Image) :
  rgba8 img ->
  Forall (fun r => byte_rgba (run_color r) /\ alpha (run_color r) <> 0%N) (encode img).
Proof.
  intros Himg. apply List.Forall_forall. intros r Hr.
  destruct (encode_sound img r Hr) as (Hy & Hlen & Hw & Ha & Hsame).
  split; [|assumption].
  rewrite <- (Hsame (run_start r)).
  - apply Himg; lia.
  - unfold spans. apply andb_true_iff. split; [apply Nat.leb_le|apply Nat.ltb_lt]; lia.
Qed.

(** The whole text, element by element. *)
Lemma svg_text_elements (img : Image) :
  rgba8 img ->
  svg_text img
  = xml_decl +:+ svg_open (width img) (height img)
    +:+ concat_str (map rect_text (encode img)) +:+ svg_close.
Proof.
  intros Himg. unfold svg_text, svg_writes.
  change (concat_str (?a :: ?b :: ?l)) with (a +:+ b +:+ concat_str l).
  rewrite concat_str_app, concat_rect_writes.
  - cbn [concat_str fold_right]. now rewrite str_app_nil_r.
  - eapply Forall_impl; [apply encode_bytes; assumption|]. intros r [H _]; exact H.
Qed.

Lemma parse_svg_text (img : Image) :
  rgba8 img ->
  parse_svg (svg_text img)
  = Some (width img, height img, map rect_of_run (encode img)).
Proof.
  intros Himg. rewrite (svg_text_elements img Himg).
  set (body := concat_str (map rect_text (encode img)) +:+ svg_close).
  unfold parse_svg, svg_open. rewrite expect_app. cbn [mbind option_bind].
  rewrite !str_app_assoc.
  change ("<svg xmlns=" +:+ ?t) with ("<svg" +:+ " xmlns" +:+ "=" +:+ t).
  rewrite expect_app. cbn [mbind option_bind].
  rewrite attr_app by reflexivity. cbn [mbind option_bind].
  change (" width=" +:+ ?t) with (" width" +:+ "=" +:+ t).
  rewrite attr_app by (apply str_nat_lacks, dq_not_digit). cbn [mbind option_bind].
  change (" height=" +:+ ?t) with (" height" +:+ "=" +:+ t).
  rewrite attr_app by (apply str_nat_lacks, dq_not_digit). cbn [mbind option_bind].
  match goal with
  | |- context ["0 0 " +:+ ?a +:+ " " +:+ ?b +:+ DQ +:+ ?t] =>
      replace ("0 0 " +:+ a +:+ " " +:+ b +:+ DQ +:+ t)
        with (("0 0 " +:+ a +:+ " " +:+ b) +:+ DQ +:+ t)
        by (rewrite !str_app_assoc; reflexivity)
  end.
  change (" viewBox=" +:+ ?t) with (" viewBox" +:+ "=" +:+ t).
  rewrite attr_app
    by (rewrite !lacks_app, !str_nat_lacks by apply dq_not_digit; reflexivity).
  cbn [mbind option_bind].
  change (" " +:+ "shape-rendering=" +:+ ?t) with (" shape-rendering" +:+ "=" +:+ t).
  rewrite attr_app by reflexivity. cbn [mbind option_bind].
  change (">" +:+ NL +:+ ?t) with ((">" +:+ NL) +:+ t).
  rewrite expect_app. cbn [mbind option_bind].
  rewrite !read_nat_str. cbn [mbind option_bind].
  unfold body at 2. rewrite parse_rects_text; [reflexivity| |apply encode_bytes; assumption].
  unfold body. rewrite str_length_app.
  pose proof (rects_length (encode img)). simpl. lia.
Qed.

(** *** The raster of the rectangles *)

Lemma paint_from (rects : list Rect) (acc c : rgba) (x y : nat) :
  (forall r, In r rects -> covers r x y = true -> rect_color r = c) ->
  acc = c \/ (exists r, In r rects /\ covers r x y = true) ->
  fold_left (fun acc r => if covers r x y then rect_color r else acc) rects acc = c.
Proof.
  revert acc; induction rects as [|r rects IH]; intros acc Hall Hsome.
  - destruct Hsome as [H|(r & [] & _)]. exact H.
  - cbn [fold_left]. apply IH.
    + intros r' Hr'. apply Hall. now right.
    + destruct (covers r x y) eqn:E.
      * left. apply Hall; [now left|assumption].
      * destruct Hsome as [H|(r' & [->|Hr'] & Hc)]; [now left|congruence|].
        right. eauto.
Qed.

Lemma paint_none (bg : rgba) (rects : list Rect) (x y : nat) :
  (forall r, In r rects -> covers r x y = false) -> paint bg rects x y = bg.
Proof.
  unfold paint. revert bg; induction rects as [|r rects IH]; intros bg Hall; [reflexivity|].
  cbn [fold_left]. rewrite (Hall r) by now left.
  apply IH. intros r' Hr'. apply Hall. now right.
Qed.

Lemma covers_rect_of_run (r : Run) (x y : nat) :
  covers (rect_of_run r) x y = true <-> spans r x = true /\ run_y r = y.
Proof.
  unfold covers, rect_of_run, spans; simpl.
  rewrite !andb_true_iff, !Nat.leb_le, !Nat.ltb_lt. lia.
Qed.

(** The raster of the written rectangles: the background on the fully
    transparent pixels and the pixel itself elsewhere. *)
Lemma paint_encode (img : Image) (bg : rgba) (x y : nat) :
  x < width img -> y < height img ->
  paint bg (map rect_of_run (encode img)) x y
  = if (alpha (pixels img x y) =? 0)%N then bg else pixels img x y.
Proof.
  intros Hx Hy.
  assert (Hcov : forall q, In q (map rect_of_run (encode img)) ->
                   covers q x y = true ->
                   rect_color q = pixels img x y /\ alpha (pixels img x y) <> 0%N).
  { intros q Hq Hc. apply in_map_iff in Hq as (r & <- & Hr).
    apply covers_rect_of_run in Hc as [Hs <-].
    destruct (encode_sound img r Hr) as (_ & _ & _ & Ha & Hsame).
    rewrite (Hsame x Hs). split; [reflexivity|assumption]. }
  destruct (alpha (pixels img x y) =? 0)%N eqn:Ea.
  - apply N.eqb_eq in Ea. apply paint_none. intros q Hq.
    destruct (covers q x y) eqn:Ec; [|reflexivity].
    destruct (Hcov q Hq Ec) as [_ Hne]. congruence.
  - apply N.eqb_neq in Ea. apply paint_from.
    + intros q Hq Hc. apply (Hcov q Hq Hc).
    + right. destruct (encode_complete img x y Hx Hy Ea) as (r & Hr & Hry & Hs).
      exists (rect_of_run r). split; [now apply in_map|].
      apply covers_rect_of_run. auto.
Qed.

(** * Facts about the file system calls *)

Lemma elem_children (d q : path) (m : gmap path node) :
  q ∈ children d m <-> is_child d q = true /\ is_Some (m !! q).
Proof.
  unfold children. rewrite list_elem_of_filter, list_elem_of_fmap. split.
  - intros [Hc ([q' v] & -> & Hin)]. apply elem_of_map_to_list in Hin.
    simpl in *. eauto.
  - intros [Hc [v Hv]]. split; [assumption|].
    exists (q, v). split; [reflexivity|]. now apply elem_of_map_to_list.
Qed.

Lemma children_nil (d : path) (m : gmap path node) :
  children d m = [] <-> forall q, is_child d q = true -> m !! q = None.
Proof.
  split.
  - intros Hnil q Hq. destruct (m !! q) eqn:E; [|reflexivity].
    assert (Hin : q ∈ children d m) by (apply elem_children; eauto).
    rewrite Hnil in Hin. inversion Hin.
  - intros Hall. destruct (children d m) as [|q l] eqn:E; [reflexivity|].
    assert (Hin : q ∈ children d m) by (rewrite E; left).
    apply elem_children in Hin as [Hc [v Hv]].
    rewrite (Hall q Hc) in Hv. discriminate.
Qed.

(** *** The buffered file *)

Lemma substring_0_0 (s : string) : String.substring 0 0 s = EmptyString.
Proof. destruct s; reflexivity. Qed.

Lemma substring_0_cons (n : nat) (c : ascii) (s : string) :
  String.substring 0 (S n) (String c s) = String c (String.substring 0 n s).
Proof. reflexivity. Qed.

Lemma substring_0_app_l (n : nat) (a b : string) :
  n <= String.length a -> String.substring 0 n (a +:+ b) = String.substring 0 n a.
Proof.
  revert n; induction a as [|c a IH]; intros n Hn.
  - simpl in Hn. replace n with 0 by lia. now rewrite !substring_0_0.
  - destruct n as [|n]; [now rewrite !substring_0_0|].
    rewrite str_app_cons, !substring_0_cons, IH; [reflexivity|simpl in Hn; lia].
Qed.

Lemma substring_0_app_r (n : nat) (a b : string) :
  String.length a <= n ->
  String.substring 0 n (a +:+ b) = a +:+ String.substring 0 (n - String.length a) b.
Proof.
  revert n; induction a as [|c a IH]; intros n Hn.
  - rewrite !str_app_nil_l. simpl. now rewrite Nat.sub_0_r.
  - destruct n as [|n]; [simpl in Hn; lia|].
    rewrite !str_app_cons, substring_0_cons, IH by (simpl in Hn; lia). reflexivity.
Qed.

Lemma substring_length (n m : nat) (s : string) :
  n + m <= String.length s -> String.length (String.substring n m s) = m.
Proof.
  revert n m; induction s as [|c s IH]; intros n m H.
  - simpl in H. destruct n, m; simpl in *; lia.
  - destruct n as [|n].
    + destruct m as [|m]; [reflexivity|].
      simpl. rewrite IH; [reflexivity|simpl in H; lia].
    + simpl. apply IH. simpl in H. lia.
Qed.

(** A second flush after one that failed: the disk is full, nothing more
    is stored and the same exception is raised. *)
Lemma close_after_failure (p : path) (buffer : string) (s : world) (d : string) (l : bool) :
  nodes s !! p = Some (File d l) -> free s < String.length buffer ->
  close p (flush p buffer s) = settled (flush p buffer s).
Proof.
  intros Hp Hfull. unfold flush at 1 2. rewrite Hp.
  replace (String.length buffer <=? free s) with false by (symmetry; apply Nat.leb_gt; lia).
  unfold close, flush, settled. cbn [nodes free opened fst snd].
  rewrite lookup_insert_eq.
  rewrite substring_length by lia.
  replace (String.length buffer - free s <=? 0) with false
    by (symmetry; apply Nat.leb_gt; lia).
  now rewrite substring_0_0, str_app_nil_r, insert_insert_eq.
Qed.

(** The [with] block of writes amounts to one flush of the whole text,
    whatever the size of the buffer: the file receives the text when the
    disk has room for it, and the bytes there is room for when it has
    not. *)
Lemma write_each_close (size : nat) (p : path) (chunks : list string)
    (buffer : string) (s : world) (d : string) (l : bool) :
  nodes s !! p = Some (File d l) ->
  close p (write_each size p chunks buffer s)
  = settled (flush p (buffer +:+ concat_str chunks) s).
Proof.
  revert buffer s d; induction chunks as [|c chunks IH]; intros buffer s d Hp.
  - cbn [write_each concat_str fold_right]. rewrite str_app_nil_r.
    unfold close, settled. destruct (flush p buffer s) as [[r b'] s']. reflexivity.
  - change (concat_str (c :: chunks)) with (c +:+ concat_str chunks).
    rewrite <- str_app_assoc. cbn [write_each]. unfold write.
    destruct (size <? String.length (buffer +:+ c)) eqn:Esize.
    + destruct (String.length (buffer +:+ c) <=? free s) eqn:Efit.
      * apply Nat.leb_le in Efit.
        unfold flush at 1. rewrite Hp.
        replace (String.length (buffer +:+ c) <=? free s) with true
          by (symmetry; apply Nat.leb_le; lia).
        rewrite (IH _ _ (d +:+ (buffer +:+ c))) by apply lookup_insert_eq.
        unfold flush, settled. cbn [nodes free opened fst snd].
        rewrite lookup_insert_eq, Hp, str_app_nil_l, !str_length_app.
        rewrite str_length_app in Efit.
        destruct (String.length (concat_str chunks)
                  <=? free s - (String.length buffer + String.length c)) eqn:Erest.
        -- apply Nat.leb_le in Erest.
           replace (String.length buffer + String.length c
                    + String.length (concat_str chunks) <=? free s) with true
             by (symmetry; apply Nat.leb_le; lia).
           cbn [fst snd]. rewrite insert_insert_eq, str_app_assoc.
           f_equal. f_equal. lia.
        -- apply Nat.leb_gt in Erest.
           replace (String.length buffer + String.length c
                    + String.length (concat_str chunks) <=? free s) with false
             by (symmetry; apply Nat.leb_gt; lia).
           cbn [fst snd]. rewrite insert_insert_eq.
           rewrite (substring_0_app_r (free s)) by (rewrite str_length_app; lia).
           rewrite str_length_app, str_app_assoc. reflexivity.
      * apply Nat.leb_gt in Efit.
        pose proof (close_after_failure p (buffer +:+ c) s d l Hp Efit) as H.
        destruct (flush p (buffer +:+ c) s) as [[[[]|e] b'] s'] eqn:E.
        { unfold flush in E. rewrite Hp in E.
          replace (String.length (buffer +:+ c) <=? free s) with false in E
            by (symmetry; apply Nat.leb_gt; lia).
          discriminate. }
        rewrite H. unfold flush in E |- *. rewrite Hp in E |- *.
        replace (String.length (buffer +:+ c) <=? free s) with false in E
          by (symmetry; apply Nat.leb_gt; lia).
        replace (String.length ((buffer +:+ c) +:+ concat_str chunks) <=? free s) with false
          by (symmetry; apply Nat.leb_gt; rewrite str_length_app; lia).
        injection E as <- <- <-. unfold settled. cbn [fst snd].
        rewrite (substring_0_app_l _ (buffer +:+ c)) by lia. reflexivity.
    + apply (IH _ _ d Hp).
Qed.

(** The state the [with] block of writes leaves, for a file that was
    empty: the whole text with room for it, its first [free] bytes
    without. *)
Lemma with_file_writes (size : nat) (p : path) (chunks : list string)
    (s : world) (l : bool) :
  nodes s !! p = Some (File EmptyString l) ->
  with_file p (write_each size p chunks) s
  = if String.length (concat_str chunks) <=? free s
    then (Ok tt, {| nodes := <[p := File (concat_str chunks) l]> (nodes s);
                    free := free s - String.length (concat_str chunks);
                    opened := opened s |})
    else (Raise ENOSPC,
          {| nodes := <[p := File (String.substring 0 (free s) (concat_str chunks)) l]>
                        (nodes s);
             free := 0;
             opened := opened s |}).
Proof.
  intros Hp. unfold with_file.
  rewrite (write_each_close size p chunks EmptyString s EmptyString l Hp).
  unfold flush, settled. rewrite Hp, !str_app_nil_l.
  destruct (String.length (concat_str chunks) <=? free s); reflexivity.
Qed.

Lemma bool_decide_elem_tail (q f : path) (l : list path) :
  q <> f -> bool_decide (q ∈ f :: l) = bool_decide (q ∈ l).
Proof.
  intros Hne. apply bool_decide_ext. rewrite elem_of_cons. intuition congruence.
Qed.

(** A file that [unlink] leaves where it is. *)
Ltac unlink_skipped IH s f Ef :=
  let s' := fresh "s'" in
  let Hrun := fresh "Hrun" in
  let Ho := fresh "Ho" in
  let Hn := fresh "Hn" in
  let q := fresh "q" in
  let Hne := fresh "Hne" in
  destruct (IH s) as (s' & Hrun & Ho & Hn);
  exists s'; split; [exact Hrun|]; split; [exact Ho|]; intros q; rewrite Hn;
  destruct (decide (q = f)) as [->|Hne];
  [ rewrite Ef; cbn [unlinkable]; now rewrite !andb_false_r
  | now rewrite (bool_decide_elem_tail q f _ Hne) ].

(** The best-effort deletions of [clear_converted]. *)
Lemma unlink_each (l : list path) (s : world) :
  exists s',
    for_each l (fun f => try_except (unlink f) (fun _ => ret tt)) s = (Ok tt, s')
    /\ opened s' = opened s
    /\ forall q, nodes s' !! q
                 = if bool_decide (q ∈ l) && unlinkable (nodes s !! q)
                   then None else nodes s !! q.
Proof.
  revert s; induction l as [|f l IH]; intros s.
  - exists s. split; [reflexivity|]. split; [reflexivity|]. intros q.
    rewrite bool_decide_eq_false_2 by (apply not_elem_of_nil). reflexivity.
  - cbn [for_each]. unfold bind at 1, try_except at 1, unlink at 1.
    destruct (nodes s !! f) as [[data [|]|]|] eqn:Ef.
    + unlink_skipped IH s f Ef.
    + set (s1 := {| nodes := delete f (nodes s);
                    free := free s + String.length data; opened := opened s |}).
      destruct (IH s1) as (s' & Hrun & Ho & Hn).
      exists s'. split; [exact Hrun|]. split; [exact Ho|]. intros q. rewrite Hn.
      cbn [nodes s1].
      destruct (decide (q = f)) as [->|Hne].
      * rewrite lookup_delete_eq, Ef. cbn [unlinkable]. rewrite andb_false_r, andb_true_r.
        rewrite bool_decide_eq_true_2 by left. reflexivity.
      * rewrite lookup_delete_ne by congruence.
        now rewrite (bool_decide_elem_tail q f _ Hne).
    + unlink_skipped IH s f Ef.
    + unlink_skipped IH s f Ef.
Qed.

(** * Facts about the batch driver *)

Section OrchestratorFacts.
Context {platform : Platform}.

Lemma removelast_out_svg (src : path) : removelast (out_svg src) = OUTPUT_DIR.
Proof. unfold out_svg. apply removelast_last. Qed.


Lemma convert_try_missing (src : path) (t : tally) (s : world) :
  nodes s !! src = None ->
  convert_try src t s = (Ok (errors_append t (name src +:+ " (missing)")), s).
Proof.
  intros Hsrc. unfold convert_try, bind, path_exists.
  rewrite Hsrc, bool_decide_eq_false_2 by (apply is_Some_None). reflexivity.
Qed.

Lemma convert_try_skip (src : path) (t : tally) (s : world) :
  is_Some (nodes s !! src) -> is_Some (nodes s !! out_svg src) ->
  convert_try src t s = (Ok (skipped_append t (name src)), s).
Proof.
  intros Hsrc Hout. unfold convert_try, bind at 1, path_exists at 1.
  rewrite bool_decide_eq_true_2 by assumption. cbn [negb].
  unfold bind, path_exists.
  rewrite bool_decide_eq_true_2 by assumption. reflexivity.
Qed.

Lemma image_open_run (src : path) (s : world) :
  image_open src s = (read_image s src, after_open s src).
Proof.
  unfold image_open, read_image, after_open.
  destruct (nodes s !! src) as [[data lk|]|]; reflexivity.
Qed.

(** [image_to_svg_vector] when the output path is free: nothing is touched
    when the conversion to RGBA or the opening of the file raises;
    otherwise the file is created and receives the whole text when the disk
    has room for it, and the bytes there is room for when it has not. *)
Lemma image_to_svg_vector_run (im : pil_image) (src : path) (s : world) :
  nodes s !! out_svg src = None ->
  match pil_convert_rgba im with
  | Raise e => image_to_svg_vector im (out_svg src) s = (Raise e, s)
  | Ok img =>
      (nodes s !! OUTPUT_DIR <> Some Dir
       /\ image_to_svg_vector im (out_svg src) s
          = (Raise "No such file or directory", s))
      \/ (nodes s !! OUTPUT_DIR = Some Dir
          /\ image_to_svg_vector im (out_svg src) s
             = if String.length (svg_text img) <=? free s
               then (Ok tt,
                     {| nodes := <[out_svg src := File (svg_text img) false]> (nodes s);
                        free := free s - String.length (svg_text img);
                        opened := opened s |})
               else (Raise ENOSPC,
                     {| nodes := <[out_svg src :=
                                     File (String.substring 0 (free s) (svg_text img)) false]>
                                   (nodes s);
                        free := 0;
                        opened := opened s |}))
  end.
Proof.
  intros Hout. unfold image_to_svg_vector, bind at 1, lift.
  destruct (pil_convert_rgba im) as [img|e]; [|reflexivity].
  unfold bind, open_w. rewrite Hout, removelast_out_svg.
  destruct (nodes s !! OUTPUT_DIR) as [[data lk|]|] eqn:Edir.
  - left. split; [discriminate|reflexivity].
  - right. split; [reflexivity|].
    rewrite (with_file_writes buffer_size (out_svg src) (svg_writes img) _ false)
      by apply lookup_insert_eq.
    unfold svg_text. cbn [with_nodes nodes free opened].
    rewrite !insert_insert_eq. reflexivity.
  - left. split; [discriminate|reflexivity].
Qed.

(** The [try] body on a path that is there and whose output is not. *)
Lemma convert_try_open (src : path) (t : tally) (s : world) :
  is_Some (nodes s !! src) -> nodes s !! out_svg src = None ->
  convert_try src t s
  = match read_image s src with
    | Raise e => (Raise e, after_open s src)
    | Ok im =>
        match image_to_svg_vector im (out_svg src) (after_open s src) with
        | (Ok _, s') => (Ok (converted_append t (name src)), s')
        | (Raise e, s') => (Raise e, s')
        end
    end.
Proof.
  intros Hsrc Hout. unfold convert_try, bind at 1, path_exists at 1.
  rewrite bool_decide_eq_true_2 by assumption. cbn [negb].
  unfold bind at 1, path_exists at 1.
  rewrite Hout, bool_decide_eq_false_2 by (apply is_Some_None).
  unfold bind at 1. rewrite image_open_run.
  destruct (read_image s src) as [im|e]; [|reflexivity].
  unfold bind at 1.
  destruct (image_to_svg_vector im (out_svg src) (after_open s src)) as [[[]|e] s'];
    reflexivity.
Qed.

(** One iteration on a path that is there and whose output is not. *)
Lemma convert_try_attempt (src : path) (t : tally) (s : world) :
  is_Some (nodes s !! src) -> nodes s !! out_svg src = None ->
  match decoded s src with
  | Raise e => convert_try src t s = (Raise e, after_open s src)
  | Ok img =>
      (nodes s !! OUTPUT_DIR <> Some Dir
       /\ convert_try src t s = (Raise "No such file or directory", after_open s src))
      \/ (nodes s !! OUTPUT_DIR = Some Dir
          /\ exists text r s',
               convert_try src t s = (r, s')
               /\ nodes s' = <[out_svg src := File text false]> (nodes s)
               /\ opened s' = opened s ++ [src]
               /\ ((r = Ok (converted_append t (name src))
                    /\ text = svg_text img
                    /\ String.length (svg_text img) <= free s
                    /\ free s' = free s - String.length (svg_text img))
                   \/ (r = Raise ENOSPC
                       /\ text = String.substring 0 (free s) (svg_text img)
                       /\ free s < String.length (svg_text img)
                       /\ free s' = 0)))
  end.
Proof.
  intros Hsrc Hout. rewrite (convert_try_open src t s Hsrc Hout). unfold decoded.
  destruct (read_image s src) as [im|e]; [|reflexivity].
  pose proof (image_to_svg_vector_run im src (after_open s src) Hout) as Hrun.
  destruct (pil_convert_rgba im) as [img|e].
  - destruct Hrun as [[Hdir He]|[Hdir He]].
    + left. split; [exact Hdir|]. rewrite He. reflexivity.
    + right. split; [exact Hdir|]. rewrite He. cbn [after_open free nodes opened].
      destruct (String.length (svg_text img) <=? free s) eqn:Eroom.
      * apply Nat.leb_le in Eroom. eexists _, _, _.
        split; [reflexivity|]. split; [reflexivity|]. split; [reflexivity|].
        left. auto.
      * apply Nat.leb_gt in Eroom. eexists _, _, _.
        split; [reflexivity|]. split; [reflexivity|]. split; [reflexivity|].
        right. auto.
  - rewrite Hrun. reflexivity.
Qed.

(** An iteration records one outcome for its path and never raises. *)
Lemma convert_path_records (src : path) (t : tally) (s : world) :
  exists t' s',
    convert_path src t s = (Ok t', s')
    /\ (t' = converted_append t (name src)
        \/ t' = skipped_append t (name src)
        \/ exists msg, t' = errors_append t (name src +:+ msg)).
Proof.
  unfold convert_path, try_except.
  destruct (nodes s !! src) as [nd|] eqn:Esrc.
  - destruct (nodes s !! out_svg src) as [no|] eqn:Eout.
    + rewrite convert_try_skip by (rewrite ?Esrc, ?Eout; eauto). eauto 6.
    + pose proof (convert_try_attempt src t s) as H.
      rewrite Esrc in H. specialize (H ltac:(eauto) Eout).
      destruct (decoded s src) as [img|e].
      * destruct H as [[_ ->]|[_ (text & r & s' & -> & _ & _ & Hr)]].
        -- unfold ret. eauto 8.
        -- destruct Hr as [(-> & _)|(-> & _)]; unfold ret; eauto 8.
      * rewrite H. unfold ret. eauto 8.
  - rewrite convert_try_missing by assumption. eauto 8.
Qed.

Lemma tally_size_recorded (t t' : tally) (n : string) :
  t' = converted_append t n \/ t' = skipped_append t n
  \/ (exists msg, t' = errors_append t (n +:+ msg)) ->
  tally_size t' = S (tally_size t).
Proof.
  unfold tally_size. intros [->|[->|[msg ->]]]; simpl; rewrite length_app; simpl; lia.
Qed.

(** The loop gives every path its outcome and ends normally. *)
Lemma for_fold_convert (paths : list path) (t : tally) (s : world) :
  exists t' s',
    for_fold paths convert_path t s = (Ok t', s')
    /\ tally_size t' = tally_size t + length paths.
Proof.
  revert t s; induction paths as [|src paths IH]; intros t s.
  - exists t, s. split; [reflexivity|]. simpl. lia.
  - destruct (convert_path_records src t s) as (t1 & s1 & Hrun & Hrec).
    destruct (IH t1 s1) as (t' & s' & Hrest & Hsize).
    exists t', s'. cbn [for_fold]. unfold bind. rewrite Hrun. split; [exact Hrest|].
    rewrite Hsize, (tally_size_recorded t t1 (name src) Hrec). simpl. lia.
Qed.

Lemma for_fold_app (l1 l2 : list path) (t : tally) (s : world) :
  for_fold (l1 ++ l2) convert_path t s
  = match for_fold l1 convert_path t s with
    | (Ok t1, s1) => for_fold l2 convert_path t1 s1
    | (Raise e, s1) => (Raise e, s1)
    end.
Proof.
  revert t s; induction l1 as [|src l1 IH]; intros t s; [reflexivity|].
  cbn [app for_fold]. unfold bind.
  destruct (convert_path src t s) as [[t1|e] s1]; [apply IH|reflexivity].
Qed.
End OrchestratorFacts.

(** * The properties of the specification *)

(** ** The encoder *)

Lemma filter_flat_map {A B : Type} (P : B -> bool) (f : A -> list B) (l : list A) :
  List.filter P (flat_map f l) = flat_map (fun a => List.filter P (f a)) l.
Proof.
  induction l as [|a l IH]; [reflexivity|].
  cbn [flat_map]. now rewrite List.filter_app, IH.
Qed.

Lemma filter_row_runs (img : Image) (y y' : nat) :
  List.filter (fun r => run_y r =? y) (row_runs img y')
  = if y' =? y then row_runs img y else [].
Proof.
  pose proof (row_runs_ok img y') as Hok.
  destruct (y' =? y) eqn:E.
  - apply Nat.eqb_eq in E. subst y'.
    induction Hok as [|r l Hr _ IH]; [reflexivity|].
    cbn [List.filter]. destruct Hr as (-> & _). now rewrite Nat.eqb_refl, IH.
  - apply Nat.eqb_neq in E.
    induction Hok as [|r l Hr _ IH]; [reflexivity|].
    cbn [List.filter]. destruct Hr as (-> & _).
    replace (y' =? y) with false by (symmetry; now apply Nat.eqb_neq). exact IH.
Qed.

Lemma flat_map_single {A : Type} (R : list A) (y a n : nat) :
  flat_map (fun y' => if y' =? y then R else []) (seq a n)
  = if (a <=? y) && (y <? a + n) then R else [].
Proof.
  revert a; induction n as [|n IH]; intros a.
  - cbn [seq flat_map].
    destruct (a <=? y) eqn:E1; [|reflexivity].
    replace (y <? a + 0) with false; [reflexivity|].
    apply Nat.leb_le in E1. symmetry. apply Nat.ltb_ge. lia.
  - cbn [seq flat_map]. rewrite IH.
    destruct (a =? y) eqn:E.
    + apply Nat.eqb_eq in E. subst a.
      replace (S y <=? y) with false by (symmetry; apply Nat.leb_gt; lia).
      replace (y <=? y) with true by (symmetry; apply Nat.leb_le; lia).
      replace (y <? y + S n) with true by (symmetry; apply Nat.ltb_lt; lia).
      cbn [andb]. now rewrite app_nil_r.
    + apply Nat.eqb_neq in E. cbn [app].
      destruct (S a <=? y) eqn:E1.
      * apply Nat.leb_le in E1.
        replace (a <=? y) with true by (symmetry; apply Nat.leb_le; lia).
        replace (S a + n) with (a + S n) by lia. reflexivity.
      * apply Nat.leb_gt in E1.
        replace (a <=? y) with false by (symmetry; apply Nat.leb_gt; lia).
        reflexivity.
Qed.

(** The runs written for row [y] are those of the row loop on [y]. *)
Lemma runs_of_row_scan (img : Image) (y : nat) :
  y < height img -> runs_of_row img y = row_runs img y.
Proof.
  intros Hy. unfold runs_of_row, encode. rewrite filter_flat_map.
  rewrite (flat_map_ext _ _ (filter_row_runs img y)).
  rewrite flat_map_single. cbn [Nat.leb andb Nat.add].
  replace (y <? height img) with true by (symmetry; now apply Nat.ltb_lt).
  reflexivity.
Qed.

(** C1, as amended.  Reading the written text back and painting its
    rectangles over a background [bg] gives an image of the same size that
    has every pixel whose alpha is not 0 exactly, and [bg] at every pixel
    whose alpha is 0: the colour under a fully transparent pixel is not
    written. *)
Theorem roundtrip_visible_pixels (img : Image) (bg : rgba) :
  rgba8 img ->
  exists out,
    rasterize bg (svg_text img) = Some out
    /\ width out = width img /\ height out = height img
    /\ forall x y, x < width img -> y < height img ->
         pixels out x y
         = if (alpha (pixels img x y) =? 0)%N then bg else pixels img x y.
Proof.
  intros Himg. unfold rasterize. rewrite (parse_svg_text img Himg).
  cbn [mbind option_bind]. eexists. split; [reflexivity|].
  cbn [width height pixels]. split; [reflexivity|]. split; [reflexivity|].
  intros x y Hx Hy. now apply paint_encode.
Qed.

Lemma sample_image_rgba8 : rgba8 sample_image.
Proof.
  intros x y _ _. unfold sample_image, byte_rgba; simpl.
  destruct (x <? 2); repeat split; reflexivity.
Qed.

Lemma roundtrip_visible_pixels_witness :
  rgba8 sample_image
  /\ exists out,
       rasterize (0, 0, 0, 0)%N (svg_text sample_image) = Some out
       /\ width out = width sample_image /\ height out = height sample_image
       /\ forall x y, x < width sample_image -> y < height sample_image ->
            pixels out x y
            = if (alpha (pixels sample_image x y) =? 0)%N
              then (0, 0, 0, 0)%N else pixels sample_image x y.
Proof.
  split; [exact sample_image_rgba8|].
  apply (roundtrip_visible_pixels sample_image (0, 0, 0, 0)%N sample_image_rgba8).
Defined.

Lemma ghost_rgba8 (p : rgba) :
  byte_rgba p -> rgba8 {| width := 1; height := 1; pixels := fun _ _ => p |}.
Proof. intros Hp x y _ _. exact Hp. Qed.

(** C1, as stated, fails: no background makes the raster of the written
    rectangles equal to every original buffer, since [ghost_red] and
    [ghost_blue] are written as the same text. *)
Lemma roundtrip_exact_counterexample :
  ~ exists bg : rgba,
      alpha bg = 0%N
      /\ forall img, rgba8 img ->
           exists out,
             rasterize bg (svg_text img) = Some out
             /\ forall x y, x < width img -> y < height img ->
                  pixels out x y = pixels img x y.
Proof.
  intros (bg & _ & H).
  destruct (H ghost_red) as (o1 & Ho1 & Hp1).
  { apply ghost_rgba8. repeat split; reflexivity. }
  destruct (H ghost_blue) as (o2 & Ho2 & Hp2).
  { apply ghost_rgba8. repeat split; reflexivity. }
  change (rasterize bg (svg_text ghost_red))
    with (Some {| width := 1; height := 1; pixels := paint bg [] |}) in Ho1.
  change (rasterize bg (svg_text ghost_blue))
    with (Some {| width := 1; height := 1; pixels := paint bg [] |}) in Ho2.
  injection Ho1 as <-. injection Ho2 as <-.
  specialize (Hp1 0 0 ltac:(simpl; lia) ltac:(simpl; lia)).
  specialize (Hp2 0 0 ltac:(simpl; lia) ltac:(simpl; lia)).
  cbn in Hp1, Hp2. congruence.
Qed.

(** C2.  The runs written for a row are at least one pixel long and lie
    inside the row, they are sorted by their start and do not overlap, and
    every column of the row is in no run when its pixel has alpha 0 and in
    exactly one run otherwise. *)
Theorem row_runs_partition (img : Image) (y : nat) :
  y < height img ->
  Forall (fun r => run_y r = y /\ 1 <= run_len r
                   /\ run_start r + run_len r <= width img)
         (runs_of_row img y)
  /\ StronglySorted (fun r1 r2 => run_start r1 < run_start r2) (runs_of_row img y)
  /\ StronglySorted run_before (runs_of_row img y)
  /\ forall x, x < width img ->
       span_count (runs_of_row img y) x
       = if (alpha (pixels img x y) =? 0)%N then 0 else 1.
Proof.
  intros Hy. rewrite (runs_of_row_scan img y Hy).
  pose proof (row_runs_ok img y) as Hok.
  pose proof (scan_row_sorted (pixels img) (width img) y (width img) 0) as Hsorted.
  fold (row_runs img y) in Hsorted.
  split; [|split; [|split]].
  - eapply Forall_impl; [exact Hok|]. intros r (H1 & _ & H2 & H3 & _). auto.
  - revert Hok. induction Hsorted as [|r l Hs IH Hr]; intros Hok; [constructor|].
    apply Forall_cons in Hok as [Hr0 Hok].
    constructor; [apply IH; assumption|].
    rewrite List.Forall_forall in *. intros r' Hr'.
    specialize (Hr r' Hr'). destruct Hr0 as (_ & _ & Hlen & _).
    unfold run_before in Hr. lia.
  - exact Hsorted.
  - intros x Hx. apply scan_row_count; lia.
Qed.

Lemma row_runs_partition_witness :
  0 < height sample_image
  /\ Forall (fun r => run_y r = 0 /\ 1 <= run_len r
                      /\ run_start r + run_len r <= width sample_image)
            (runs_of_row sample_image 0)
  /\ StronglySorted (fun r1 r2 => run_start r1 < run_start r2)
       (runs_of_row sample_image 0)
  /\ StronglySorted run_before (runs_of_row sample_image 0)
  /\ forall x, x < width sample_image ->
       span_count (runs_of_row sample_image 0) x
       = if (alpha (pixels sample_image x 0) =? 0)%N then 0 else 1.
Proof.
  split; [simpl; lia|].
  apply (row_runs_partition sample_image 0). simpl; lia.
Defined.

(** C3.  Two runs written one after the other for a row, the second
    starting where the first ends, differ in colour. *)
Theorem touching_runs_differ (img : Image) (y : nat) (l1 l2 : list Run) (r1 r2 : Run) :
  y < height img ->
  runs_of_row img y = l1 ++ r1 :: r2 :: l2 ->
  run_start r1 + run_len r1 = run_start r2 ->
  run_color r1 <> run_color r2.
Proof.
  intros Hy. rewrite (runs_of_row_scan img y Hy). unfold row_runs.
  apply scan_row_maximal.
Qed.

Lemma touching_runs_differ_witness :
  0 < height sample_image
  /\ runs_of_row sample_image 0
     = [] ++ {| run_y := 0; run_start := 0; run_len := 2;
                run_color := (255, 0, 0, 255)%N |}
          :: {| run_y := 0; run_start := 2; run_len := 1;
                run_color := (0, 255, 0, 128)%N |} :: []
  /\ (255, 0, 0, 255)%N <> (0, 255, 0, 128)%N.
Proof.
  split; [simpl; lia|]. split; [reflexivity|].
  apply (touching_runs_differ sample_image 0 []
           []
           {| run_y := 0; run_start := 0; run_len := 2;
              run_color := (255, 0, 0, 255)%N |}
           {| run_y := 0; run_start := 2; run_len := 1;
              run_color := (0, 255, 0, 128)%N |});
    [simpl; lia|reflexivity|reflexivity].
Defined.

(** Runs of one colour that a transparent pixel separates stay apart. *)
Example separated_runs_keep_colour :
  runs_of_row gap_image 0
  = [ {| run_y := 0; run_start := 0; run_len := 1; run_color := (255, 0, 0, 255)%N |};
      {| run_y := 0; run_start := 2; run_len := 1; run_color := (255, 0, 0, 255)%N |} ].
Proof. reflexivity. Qed.

(** C4.  The element written for a run of an image whose channels are
    bytes is [rect_text]: its [fill] is [#] and the two upper-case
    hexadecimal digits of each of the red, green and blue channels (seven
    characters), it has no [fill-opacity] when alpha is 255, and otherwise a
    [fill-opacity] that is [0.] and the six decimals of alpha / 255 rounded
    to the nearest; for alpha 128 this is [0.501961]. *)
Theorem rect_fill_and_opacity (img : Image) (r : Run) :
  rgba8 img -> In r (encode img) ->
  concat_str (rect_writes r) = rect_text r
  /\ (let '(cr, cg, cb, ca) := run_color r in
      fst (rgba_to_svg_fill cr cg cb ca) = "#" +:+ hex2 cr +:+ hex2 cg +:+ hex2 cb
      /\ String.length (fst (rgba_to_svg_fill cr cg cb ca)) = 7
      /\ (ca = 255%N -> rect_opacity r = [])
      /\ (ca <> 255%N ->
          rect_opacity r = [" fill-opacity=" +:+ DQ +:+ opacity_text ca +:+ DQ]
          /\ String.length (opacity_text ca) = 8)
      /\ (ca = 128%N ->
          rect_opacity r = [" fill-opacity=" +:+ DQ +:+ "0.501961" +:+ DQ])).
Proof.
  intros Himg Hr.
  pose proof (encode_bytes img Himg) as Hall.
  rewrite List.Forall_forall in Hall. destruct (Hall r Hr) as [Hb Ha].
  split; [apply rect_writes_text; exact Hb|].
  unfold rect_opacity. unfold byte_rgba in Hb.
  destruct (run_color r) as [[[cr cg] cb] ca]. destruct Hb as (Hcr & Hcg & Hcb & Hca).
  cbn [fst rgba_to_svg_fill].
  rewrite !fmt_02X_hex2 by assumption.
  split; [reflexivity|]. split; [reflexivity|]. split; [|split].
  - intros ->. now rewrite opaque_not_below_one.
  - intros Hne. destruct (opacity_facts cr cg cb ca Hca Hne) as (H1 & H2 & _ & _ & H5).
    rewrite H1, H2. split; [reflexivity|exact H5].
  - intros ->.
    destruct (opacity_facts cr cg cb 128%N ltac:(reflexivity) ltac:(discriminate))
      as (H1 & H2 & _).
    rewrite H1, H2. reflexivity.
Qed.

Lemma rect_fill_and_opacity_witness :
  rgba8 sample_image
  /\ In {| run_y := 0; run_start := 2; run_len := 1; run_color := (0, 255, 0, 128)%N |}
        (encode sample_image)
  /\ rect_opacity {| run_y := 0; run_start := 2; run_len := 1;
                     run_color := (0, 255, 0, 128)%N |}
     = [" fill-opacity=" +:+ DQ +:+ "0.501961" +:+ DQ].
Proof.
  split; [exact sample_image_rgba8|].
  split; [right; left; reflexivity|].
  apply (rect_fill_and_opacity sample_image
           {| run_y := 0; run_start := 2; run_len := 1; run_color := (0, 255, 0, 128)%N |}
           sample_image_rgba8 ltac:(right; left; reflexivity)).
  reflexivity.
Defined.

(** C6.  Two images of the same size with the same pixel at every
    coordinate inside them are written as the same text. *)
Theorem svg_text_deterministic (img1 img2 : Image) :
  width img1 = width img2 ->
  height img1 = height img2 ->
  (forall x y, x < width img1 -> y < height img1 ->
     pixels img1 x y = pixels img2 x y) ->
  svg_writes img1 = svg_writes img2 /\ svg_text img1 = svg_text img2.
Proof.
  intros Hw Hh Hpx.
  assert (Hvis : same_visible img1 img2).
  { split; [exact Hw|]. split; [exact Hh|].
    intros x y Hx Hy. rewrite (Hpx x y Hx Hy). auto. }
  assert (Hwrites : svg_writes img1 = svg_writes img2).
  { unfold svg_writes. now rewrite (encode_ext img1 img2 Hvis), Hw, Hh. }
  split; [exact Hwrites|]. unfold svg_text. now rewrite Hwrites.
Qed.

Lemma svg_text_deterministic_witness :
  (forall x y, x < width grey_image -> y < height grey_image ->
     pixels grey_image x y = pixels grey_image' x y)
  /\ pixels grey_image 1 0 <> pixels grey_image' 1 0
  /\ svg_text grey_image = svg_text grey_image'.
Proof.
  assert (H : forall x y, x < width grey_image -> y < height grey_image ->
                pixels grey_image x y = pixels grey_image' x y).
  { intros x y Hx Hy. simpl in Hx, Hy.
    destruct x; [|lia]. destruct y; [|lia]. reflexivity. }
  split; [exact H|]. split; [discriminate|].
  apply (svg_text_deterministic grey_image grey_image' eq_refl eq_refl H).
Defined.

(** C10.  Two images of the same size that differ only in the red, green
    and blue channels of pixels whose alpha is 0 are written as the same
    text. *)
Theorem transparent_rgb_ignored (img1 img2 : Image) :
  width img1 = width img2 ->
  height img1 = height img2 ->
  (forall x y, x < width img1 -> y < height img1 ->
     alpha (pixels img1 x y) = alpha (pixels img2 x y)
     /\ (alpha (pixels img1 x y) <> 0%N -> pixels img1 x y = pixels img2 x y)) ->
  svg_text img1 = svg_text img2.
Proof.
  intros Hw Hh Hpx. apply svg_text_ext. split; [exact Hw|]. split; [exact Hh|exact Hpx].
Qed.

Lemma transparent_rgb_ignored_witness :
  pixels ghost_red 0 0 <> pixels ghost_blue 0 0
  /\ svg_text ghost_red = svg_text ghost_blue.
Proof.
  split; [discriminate|].
  apply (transparent_rgb_ignored ghost_red ghost_blue eq_refl eq_refl).
  intros x y _ _. split; [reflexivity|]. intros H. exfalso. apply H. reflexivity.
Defined.

(** ** The batch driver *)

Section Claims.
Context {platform : Platform}.

Lemma converted_append_neq_errors (t : tally) (n m : string) :
  converted_append t n <> errors_append t m.
Proof.
  intros H. apply (f_equal converted) in H. simpl in H.
  apply (f_equal length) in H. rewrite length_app in H. simpl in H. lia.
Qed.

Lemma converted_append_neq_skipped (t : tally) (n m : string) :
  converted_append t n <> skipped_append t m.
Proof.
  intros H. apply (f_equal converted) in H. simpl in H.
  apply (f_equal length) in H. rewrite length_app in H. simpl in H. lia.
Qed.

(** The outcome in [Hrun] is not the one of a converted path. *)
Ltac other_outcome Hrun :=
  exfalso;
  lazymatch type of Hrun with
  | (Ok (skipped_append ?t ?m), _) = (Ok (converted_append _ ?n), _) =>
      apply (converted_append_neq_skipped t n m); congruence
  | (Ok (errors_append ?t ?m), _) = (Ok (converted_append _ ?n), _) =>
      apply (converted_append_neq_errors t n m); congruence
  end.

(** A path recorded as converted was there, its output was not, and the
    output now holds the whole text of the decoded image, which the disk
    had room for. *)
Lemma converted_written (src : path) (t : tally) (s s1 : world) :
  convert_path src t s = (Ok (converted_append t (name src)), s1) ->
  is_Some (nodes s !! src) /\ nodes s !! out_svg src = None
  /\ exists img, decoded s src = Ok img
                 /\ nodes s1 = <[out_svg src := File (svg_text img) false]> (nodes s)
                 /\ opened s1 = opened s ++ [src]
                 /\ String.length (svg_text img) <= free s.
Proof.
  unfold convert_path, try_except. intros Hrun.
  destruct (nodes s !! src) as [nd|] eqn:Esrc.
  - destruct (nodes s !! out_svg src) as [no|] eqn:Eout.
    + rewrite convert_try_skip in Hrun by (rewrite ?Esrc, ?Eout; eauto).
      other_outcome Hrun.
    + split; [eauto|]. split; [reflexivity|].
      pose proof (convert_try_attempt src t s) as H.
      rewrite Esrc in H. specialize (H ltac:(eauto) Eout).
      destruct (decoded s src) as [img|e].
      * exists img. split; [reflexivity|].
        destruct H as [[_ He]|[_ (text & r & s' & He & Hn & Ho & Hr)]];
          rewrite He in Hrun.
        -- unfold ret in Hrun. other_outcome Hrun.
        -- destruct Hr as [(-> & -> & Hroom & _)|(-> & _)].
           ++ injection Hrun as <-. auto.
           ++ unfold ret in Hrun. other_outcome Hrun.
      * rewrite H in Hrun. unfold ret in Hrun. other_outcome Hrun.
  - rewrite convert_try_missing in Hrun by assumption. other_outcome Hrun.
Qed.

Lemma convert_path_skip (src : path) (t : tally) (s : world) :
  is_Some (nodes s !! src) -> is_Some (nodes s !! out_svg src) ->
  convert_path src t s = (Ok (skipped_append t (name src)), s).
Proof.
  intros Hsrc Hout. unfold convert_path, try_except.
  now rewrite convert_try_skip.
Qed.


(** C7, as amended.  When the [try] for a path raises, the path is
    recorded as an error, and its output file was not there before.  If the
    failure is one of decoding ([Image.open] or the conversion to RGBA
    raises), or the output directory is not there, the files are as before
    and the output file does not exist.  If the image decodes and the
    exception is the [OSError] of a full disk, the failure is one of
    writing: the output directory is there, the text does not fit on the
    disk, and the output file is there, holding the first bytes of the
    text, as many as the disk had room for; nothing removes it.  In every
    case the failed conversion changes no file but that one. *)
Theorem failed_conversion (src : path) (t : tally) (s s' : world) (e : string) :
  convert_try src t s = (Raise e, s') ->
  convert_path src t s
  = (Ok (errors_append t (name src +:+ " (error: " +:+ e +:+ ")")), s')
  /\ nodes s !! out_svg src = None
  /\ (forall e', decoded s src = Raise e' ->
        e = e' /\ nodes s' = nodes s /\ nodes s' !! out_svg src = None)
  /\ (nodes s !! OUTPUT_DIR <> Some Dir ->
        nodes s' = nodes s /\ nodes s' !! out_svg src = None)
  /\ (e = ENOSPC -> forall img, decoded s src = Ok img ->
        nodes s !! OUTPUT_DIR = Some Dir
        /\ free s < String.length (svg_text img)
        /\ nodes s' !! out_svg src
           = Some (File (String.substring 0 (free s) (svg_text img)) false))
  /\ (nodes s' = nodes s
      \/ exists img,
           decoded s src = Ok img
           /\ free s < String.length (svg_text img)
           /\ nodes s'
              = <[out_svg src := File (String.substring 0 (free s) (svg_text img)) false]>
                  (nodes s)).
Proof.
  intros Hrun.
  split; [unfold convert_path, try_except; now rewrite Hrun|].
  destruct (nodes s !! src) as [nd|] eqn:Esrc;
    [|rewrite convert_try_missing in Hrun by assumption; discriminate].
  destruct (nodes s !! out_svg src) as [no|] eqn:Eout;
    [rewrite convert_try_skip in Hrun by (rewrite ?Esrc, ?Eout; eauto); discriminate|].
  split; [reflexivity|].
  pose proof (convert_try_attempt src t s) as H.
  rewrite Esrc in H. specialize (H ltac:(eauto) Eout).
  destruct (decoded s src) as [img|e0].
  - destruct H as [[Hdir He]|[Hdir (text & r & s2 & He & Hn & _ & Hr)]];
      rewrite He in Hrun.
    + injection Hrun as <- <-. split; [discriminate|]. split; [now split|].
      split; [discriminate|]. left. reflexivity.
    + split; [discriminate|]. split; [congruence|].
      destruct Hr as [(-> & _)|(-> & -> & Hfull & _)]; [discriminate|].
      injection Hrun as <- <-. split.
      * intros _ img' Himg. injection Himg as <-.
        split; [exact Hdir|]. split; [exact Hfull|].
        rewrite Hn. apply lookup_insert_eq.
      * right. exists img. auto.
  - rewrite H in Hrun. injection Hrun as <- <-.
    split; [intros e' He'; injection He' as <-; now repeat split|].
    split; [intros; now split|].
    split; [intros _ img Himg; discriminate|]. left. reflexivity.
Qed.

(** C8.  An iteration of the loop never raises and records exactly one
    outcome for its path; an exception of the [try] is recorded as an
    error of that path, and a path that is not there any more as
    [(missing)]; the loop gives every path its outcome and ends normally,
    going on with the paths that follow whatever a path's outcome was. *)
Theorem batch_errors_contained :
  (forall src t s,
     exists t' s',
       convert_path src t s = (Ok t', s')
       /\ (t' = converted_append t (name src)
           \/ t' = skipped_append t (name src)
           \/ exists msg, t' = errors_append t (name src +:+ msg)))
  /\ (forall src t s e s',
        convert_try src t s = (Raise e, s') ->
        convert_path src t s
        = (Ok (errors_append t (name src +:+ " (error: " +:+ e +:+ ")")), s'))
  /\ (forall src t s,
        nodes s !! src = None ->
        convert_path src t s = (Ok (errors_append t (name src +:+ " (missing)")), s))
  /\ (forall paths t s,
        exists t' s',
          for_fold paths convert_path t s = (Ok t', s')
          /\ tally_size t' = tally_size t + length paths)
  /\ (forall l1 src l2 t s,
        exists t1 s1 t2 s2,
          for_fold l1 convert_path t s = (Ok t1, s1)
          /\ convert_path src t1 s1 = (Ok t2, s2)
          /\ for_fold (l1 ++ src :: l2) convert_path t s
             = for_fold l2 convert_path t2 s2)
  /\ (forall paths s,
        nodes s !! OUTPUT_DIR = Some Dir ->
        exists t' s',
          convert_selected paths s = (Ok t', s')
          /\ tally_size t' = length paths).
Proof.
  split; [exact convert_path_records|].
  split; [intros src t s e s' Hrun; unfold convert_path, try_except; now rewrite Hrun|].
  split.
  { intros src t s Hsrc. unfold convert_path, try_except.
    now rewrite convert_try_missing. }
  split; [exact for_fold_convert|].
  split.
  - intros l1 src l2 t s.
    destruct (for_fold_convert l1 t s) as (t1 & s1 & H1 & _).
    destruct (convert_path_records src t1 s1) as (t2 & s2 & H2 & _).
    exists t1, s1, t2, s2. split; [exact H1|]. split; [exact H2|].
    rewrite for_fold_app, H1. cbn [for_fold]. unfold bind. now rewrite H2.
  - intros paths s Hdir. destruct paths as [|p paths].
    + exists no_tally, s. split; reflexivity.
    + destruct (for_fold_convert (p :: paths) no_tally s) as (t' & s' & Hrun & Hsize).
      exists t', s'. unfold convert_selected, bind, mkdir_exist_ok. rewrite Hdir.
      split; [exact Hrun|exact Hsize].
Qed.

Lemma output_dir_not_child : is_child OUTPUT_DIR OUTPUT_DIR = false.
Proof.
  unfold is_child. apply bool_decide_eq_false_2. intros [_ H].
  unfold OUTPUT_DIR in H. rewrite removelast_last in H.
  apply (f_equal length) in H. rewrite length_app in H. simpl in H. lia.
Qed.

End Claims.

(** ** The batch driver on the sample worlds *)

(** The test for a missing path comes first: [gone.png] is recorded as
    missing although an output of that name is there. *)
Example missing_input_comes_first :
  is_Some (nodes stale_world !! @out_svg sample_platform ["in"; "gone.png"])
  /\ @convert_path sample_platform ["in"; "gone.png"] no_tally stale_world
     = (Ok (errors_append no_tally "gone.png (missing)"), stale_world).
Proof.
  split; [exists (File "old" false)|]; vm_compute; reflexivity.
Qed.


(** C7, as stated, fails: the disk has room for 50 bytes of the 295 of the
    text, the flush of the close raises, the path is recorded as an error,
    and the output file is there with the first 50 bytes. *)
Lemma partial_output_counterexample :
  exists s',
    @convert_path sample_platform ["in"; "a.png"] no_tally full_world
    = (Ok (errors_append no_tally "a.png (error: [Errno 28] No space left on device)"), s')
    /\ nodes s' !! @out_svg sample_platform ["in"; "a.png"]
       = Some (File (xml_decl +:+ "<svg xmlns=") false).
Proof.
  exists (snd (@convert_path sample_platform ["in"; "a.png"] no_tally full_world)).
  split; vm_compute; reflexivity.
Qed.

(** With a buffer of 64 bytes the exception comes from a write inside the
    loop, and the file that is left is the same. *)
Example partial_output_small_buffer :
  exists s',
    @convert_path small_buffer_platform ["in"; "a.png"] no_tally full_world
    = (Ok (errors_append no_tally "a.png (error: [Errno 28] No space left on device)"), s')
    /\ nodes s' !! @out_svg small_buffer_platform ["in"; "a.png"]
       = Some (File (xml_decl +:+ "<svg xmlns=") false)
    /\ fst (fst (write_each 64 (@out_svg small_buffer_platform ["in"; "a.png"])
                   (svg_writes sample_image) EmptyString
                   (with_nodes (insert (@out_svg small_buffer_platform ["in"; "a.png"])
                                       (File EmptyString false)) full_world)))
       = Raise ENOSPC.
Proof.
  exists (snd (@convert_path small_buffer_platform ["in"; "a.png"] no_tally full_world)).
  repeat split; vm_compute; reflexivity.
Qed.

Lemma failed_conversion_witness :
  exists s',
    @convert_try sample_platform ["in"; "a.png"] no_tally full_world = (Raise ENOSPC, s')
    /\ @convert_path sample_platform ["in"; "a.png"] no_tally full_world
       = (Ok (errors_append no_tally ("a.png" +:+ " (error: " +:+ ENOSPC +:+ ")")), s')
    /\ free full_world < String.length (svg_text sample_image)
    /\ nodes s' !! @out_svg sample_platform ["in"; "a.png"]
       = Some (File (String.substring 0 (free full_world) (svg_text sample_image)) false).
Proof.
  exists (snd (@convert_try sample_platform ["in"; "a.png"] no_tally full_world)).
  assert (Hrun : @convert_try sample_platform ["in"; "a.png"] no_tally full_world
                 = (Raise ENOSPC,
                    snd (@convert_try sample_platform ["in"; "a.png"] no_tally full_world))).
  { vm_compute. reflexivity. }
  split; [exact Hrun|].
  pose proof (@failed_conversion sample_platform ["in"; "a.png"] no_tally full_world
                _ _ Hrun) as (Hpath & _ & _ & _ & Hwrite & _).
  split; [exact Hpath|].
  destruct (Hwrite eq_refl sample_image) as (_ & Hfull & Hfile);
    [vm_compute; reflexivity|].
  split; [exact Hfull|exact Hfile].
Defined.

Lemma batch_errors_contained_witness :
  @convert_try sample_platform ["in"; "c.png"] no_tally sample_world
  = (Raise "image file is truncated", after_open sample_world ["in"; "c.png"])
  /\ @convert_path sample_platform ["in"; "c.png"] no_tally sample_world
     = (Ok (errors_append no_tally "c.png (error: image file is truncated)"),
        after_open sample_world ["in"; "c.png"])
  /\ nodes sample_world !! ["in"; "gone.png"] = None
  /\ @convert_path sample_platform ["in"; "gone.png"] no_tally sample_world
     = (Ok (errors_append no_tally "gone.png (missing)"), sample_world).
Proof.
  assert (Hrun : @convert_try sample_platform ["in"; "c.png"] no_tally sample_world
                 = (Raise "image file is truncated",
                    after_open sample_world ["in"; "c.png"])).
  { vm_compute. reflexivity. }
  assert (Hgone : nodes sample_world !! ["in"; "gone.png"] = None).
  { vm_compute. reflexivity. }
  pose proof (@batch_errors_contained sample_platform) as (_ & Hcaught & Hmissing & _).
  split; [exact Hrun|]. split; [exact (Hcaught _ _ _ _ _ Hrun)|].
  split; [exact Hgone|]. exact (Hmissing _ no_tally _ Hgone).
Defined.

(** A batch with a file the decoder refuses, a path that is gone, a file
    that fails in the conversion and a path selected twice. *)
Example sample_batch :
  fst (@convert_selected sample_platform
         [["in"; "b.png"]; ["in"; "gone.png"]; ["in"; "a.png"];
          ["in"; "c.png"]; ["in"; "a.png"]]
         sample_world)
  = Ok {| converted := ["a.png"];
          skipped := ["a.png"];
          errors := ["b.png (error: cannot identify image file)";
                     "gone.png (missing)";
                     "c.png (error: image file is truncated)"] |}.
Proof. vm_compute. reflexivity. Qed.


(** After a conversion, clearing removes the output and the directory. *)
Example convert_then_clear :
  let s1 := snd (@convert_selected sample_platform [["in"; "a.png"]] sample_world) in
  let s2 := snd (@clear_converted sample_platform s1) in
  nodes s1 !! ["app"; "converted_svgs"; "a.svg"]
  = Some (File (svg_text sample_image) false)
  /\ nodes s2 !! ["app"; "converted_svgs"; "a.svg"] = None
  /\ nodes s2 !! ["app"; "converted_svgs"] = None
  /\ nodes s2 !! ["in"; "a.png"] = Some (File "pixels" false).
Proof. vm_compute. repeat split; reflexivity. Qed.

(** ** The scenarios of the specification *)

Example three_pixels_two_runs :
  encode {| width := 3; height := 1;
            pixels := fun x _ =>
              if x <? 2 then (255, 0, 0, 255)%N else (0, 255, 0, 255)%N |}
  = [ {| run_y := 0; run_start := 0; run_len := 2; run_color := (255, 0, 0, 255)%N |};
      {| run_y := 0; run_start := 2; run_len := 1; run_color := (0, 255, 0, 255)%N |} ].
Proof. reflexivity. Qed.

Example transparent_image_no_rect :
  svg_writes {| width := 2; height := 2; pixels := fun _ _ => (0, 0, 0, 0)%N |}
  = [xml_decl; svg_open 2 2; svg_close].
Proof. reflexivity. Qed.

Example uniform_row_one_run :
  encode {| width := 5; height := 1; pixels := fun _ _ => (1, 2, 3, 4)%N |}
  = [ {| run_y := 0; run_start := 0; run_len := 5; run_color := (1, 2, 3, 4)%N |} ].
Proof. reflexivity. Qed.

(** * Further properties of the encoder *)

Section ScanMore.
Variable px : nat -> nat -> rgba.
Variable w y : nat.

Lemma scan_row_past fuel x : w <= x -> scan_row px w y fuel x = [].
Proof.
  intros Hx. destruct fuel as [|k]; [reflexivity|].
  rewrite scan_row_step.
  replace (x <? w) with false by (symmetry; apply Nat.ltb_ge; lia). reflexivity.
Qed.

(** Over pixels of one colour the inner loop runs to the end of the row. *)
Lemma run_end_all fuel c x :
  (forall i, x <= i < w -> px i y = c) -> w - x <= fuel -> x <= w ->
  run_end px w y fuel c x = w.
Proof.
  intros Hall. revert x Hall; induction fuel as [|k IH]; intros x Hall Hf Hx.
  - simpl. lia.
  - rewrite run_end_step. destruct (x <? w) eqn:E.
    + apply Nat.ltb_lt in E.
      replace (rgba_eqb (px x y) c) with true
        by (symmetry; apply rgba_eqb_eq, Hall; lia).
      cbn [andb]. apply IH; [|lia|lia]. intros i Hi. apply Hall. lia.
    + apply Nat.ltb_ge in E. cbn [andb]. lia.
Qed.

(** A run ends at the end of the row or before a pixel of another colour. *)
Lemma scan_row_right fuel x :
  Forall (fun r => run_start r + run_len r = w
                   \/ px (run_start r + run_len r) y <> run_color r)
         (scan_row px w y fuel x).
Proof.
  revert x; induction fuel as [|k IH]; intros x; [constructor|].
  rewrite scan_row_step.
  destruct (x <? w) eqn:E; [|constructor].
  apply Nat.ltb_lt in E.
  destruct (alpha (px x y) =? 0)%N; [apply IH|].
  constructor; [|apply IH].
  rewrite run_at_end. cbn [run_color run_at].
  pose proof (run_end_le px w y w (px x y) (x + 1) ltac:(lia)) as Hle.
  destruct (run_end_stop px w y w (px x y) (x + 1) ltac:(lia)) as [Hstop|Hstop].
  - left. lia.
  - right. exact Hstop.
Qed.

(** A run starts at the start of the row or after a pixel of another
    colour, when the scan itself starts at such a place. *)
Lemma scan_row_left fuel x :
  x = 0 \/ alpha (px x y) = 0%N \/ px (x - 1) y <> px x y ->
  Forall (fun r => run_start r = 0 \/ px (run_start r - 1) y <> run_color r)
         (scan_row px w y fuel x).
Proof.
  revert x; induction fuel as [|k IH]; intros x Hx; [constructor|].
  rewrite scan_row_step.
  destruct (x <? w) eqn:E; [|constructor].
  apply Nat.ltb_lt in E.
  destruct (alpha (px x y) =? 0)%N eqn:Ea.
  - apply N.eqb_eq in Ea. apply IH. right.
    destruct (N.eq_dec (alpha (px (x + 1) y)) 0%N) as [Hz|Hnz]; [left; exact Hz|].
    right. replace (x + 1 - 1) with x by lia. intros Heq. congruence.
  - apply N.eqb_neq in Ea. constructor.
    + cbn [run_start run_color run_at].
      destruct Hx as [Hx|[Hx|Hx]]; [left; exact Hx|congruence|right; exact Hx].
    + set (e := run_end px w y w (px x y) (x + 1)).
      pose proof (run_end_ge px w y w (px x y) (x + 1)) as Hge. fold e in Hge.
      destruct (run_end_stop px w y w (px x y) (x + 1) ltac:(lia)) as [Hstop|Hstop];
        fold e in Hstop.
      * rewrite scan_row_past by exact Hstop. constructor.
      * apply IH. right. right.
        assert (Hprev : px (e - 1) y = px x y).
        { destruct (decide (e - 1 = x)) as [->|Hne]; [reflexivity|].
          apply (run_end_same px w y w (px x y) (x + 1)). fold e. lia. }
        rewrite Hprev. congruence.
Qed.

Lemma filter_seq_all (f : nat -> bool) (a n : nat) :
  (forall i, a <= i < a + n -> f i = true) ->
  length (List.filter f (seq a n)) = n.
Proof.
  revert a; induction n as [|n IH]; intros a Hall; [reflexivity|].
  cbn [seq List.filter]. rewrite (Hall a) by lia. cbn [length].
  rewrite IH; [reflexivity|]. intros i Hi. apply Hall. lia.
Qed.

(** The lengths of the runs add up to the number of visible pixels. *)
Lemma scan_row_area fuel x :
  w - x <= fuel -> x <= w ->
  list_sum (map run_len (scan_row px w y fuel x))
  = length (List.filter (fun i => negb (alpha (px i y) =? 0)%N) (seq x (w - x))).
Proof.
  revert x; induction fuel as [|k IH]; intros x Hf Hx.
  - replace (w - x) with 0 by lia. reflexivity.
  - rewrite scan_row_step. destruct (x <? w) eqn:E.
    + apply Nat.ltb_lt in E.
      replace (w - x) with (S (w - (x + 1))) by lia.
      cbn [seq List.filter].
      destruct (alpha (px x y) =? 0)%N eqn:Ea; cbn [negb].
      * rewrite (IH (x + 1)) by lia. now rewrite Nat.add_1_r.
      * set (e := run_end px w y w (px x y) (x + 1)).
        pose proof (run_end_ge px w y w (px x y) (x + 1)) as Hge.
        pose proof (run_end_le px w y w (px x y) (x + 1) ltac:(lia)) as Hle.
        fold e in Hge, Hle.
        cbn [map]. change (list_sum (?a :: ?l)) with (a + list_sum l).
        cbn [run_len run_at]. fold e.
        rewrite (IH e) by lia. cbn [length].
        replace (w - (x + 1)) with ((e - (x + 1)) + (w - e)) by lia.
        rewrite seq_app, List.filter_app, length_app.
        replace (S x + (e - (x + 1))) with e by lia.
        rewrite (filter_seq_all _ (S x) (e - (x + 1))); [lia|].
        intros i Hi.
        rewrite (run_end_same px w y w (px x y) (x + 1) i) by (fold e; lia).
        now rewrite Ea.
    + apply Nat.ltb_ge in E. replace (w - x) with 0 by lia. reflexivity.
Qed.
End ScanMore.

(** X1.  An image is written without any rectangle exactly when none of its
    pixels is visible: every pixel has alpha 0, or the image has no pixel
    at all. *)
Theorem encode_nil_iff (img : Image) :
  encode img = []
  <-> forall x y, x < width img -> y < height img ->
        alpha (pixels img x y) = 0%N.
Proof.
  split.
  - intros Hnil x y Hx Hy.
    destruct (N.eq_dec (alpha (pixels img x y)) 0%N) as [Hz|Hnz]; [exact Hz|].
    destruct (encode_complete img x y Hx Hy Hnz) as (r & Hr & _).
    rewrite Hnil in Hr. destruct Hr.
  - intros Hall. destruct (encode img) as [|r l] eqn:E; [reflexivity|].
    assert (Hr : In r (encode img)) by (rewrite E; now left).
    destruct (encode_sound img r Hr) as (Hy & Hlen & Hw & Ha & Hsame).
    exfalso. apply Ha. rewrite <- (Hsame (run_start r)).
    + apply Hall; lia.
    + unfold spans. apply andb_true_iff.
      split; [apply Nat.leb_le|apply Nat.ltb_lt]; lia.
Qed.

(** X2.  A row whose pixels all have one colour that is not fully
    transparent is written as a single run over the whole row. *)
Theorem uniform_row_single_run (img : Image) (y : nat) (c : rgba) :
  y < height img -> 0 < width img -> alpha c <> 0%N ->
  (forall x, x < width img -> pixels img x y = c) ->
  runs_of_row img y
  = [ {| run_y := y; run_start := 0; run_len := width img; run_color := c |} ].
Proof.
  intros Hy Hw Hc Hall. rewrite (runs_of_row_scan img y Hy). unfold row_runs.
  destruct (width img) as [|k] eqn:Ew; [lia|].
  rewrite scan_row_step. cbn [Nat.ltb Nat.leb].
  rewrite (Hall 0) by lia.
  replace (alpha c =? 0)%N with false by (symmetry; now apply N.eqb_neq).
  unfold run_at. rewrite (Hall 0) by lia.
  rewrite (run_end_all (pixels img) (S k) y (S k) c (0 + 1)); [|intros i Hi; apply Hall; lia|lia|lia].
  rewrite scan_row_past by lia.
  now rewrite Nat.sub_0_r.
Qed.

Lemma uniform_row_single_run_witness :
  runs_of_row {| width := 5; height := 2; pixels := fun _ _ => (1, 2, 3, 4)%N |} 1
  = [ {| run_y := 1; run_start := 0; run_len := 5; run_color := (1, 2, 3, 4)%N |} ].
Proof.
  apply (uniform_row_single_run
           {| width := 5; height := 2; pixels := fun _ _ => (1, 2, 3, 4)%N |} 1
           (1, 2, 3, 4)%N);
    [simpl; lia|simpl; lia|discriminate|reflexivity].
Defined.

(** X3.  A run of a row cannot be extended: it starts at the first column
    or after a pixel of another colour, and it ends at the last column or
    before a pixel of another colour. *)
Theorem run_not_extendable (img : Image) (y : nat) (r : Run) :
  y < height img -> In r (runs_of_row img y) ->
  (run_start r = 0 \/ pixels img (run_start r - 1) y <> run_color r)
  /\ (run_start r + run_len r = width img
      \/ pixels img (run_start r + run_len r) y <> run_color r).
Proof.
  intros Hy. rewrite (runs_of_row_scan img y Hy). unfold row_runs. intros Hr.
  pose proof (scan_row_left (pixels img) (width img) y (width img) 0 ltac:(now left)) as Hl.
  pose proof (scan_row_right (pixels img) (width img) y (width img) 0) as Hrt.
  rewrite List.Forall_forall in Hl, Hrt. split; [apply Hl|apply Hrt]; exact Hr.
Qed.

Lemma run_not_extendable_witness :
  (run_start {| run_y := 0; run_start := 2; run_len := 1;
                run_color := (0, 255, 0, 128)%N |} = 0
   \/ pixels sample_image (2 - 1) 0 <> (0, 255, 0, 128)%N)
  /\ (2 + 1 = width sample_image
      \/ pixels sample_image (2 + 1) 0 <> (0, 255, 0, 128)%N).
Proof.
  apply (run_not_extendable sample_image 0
           {| run_y := 0; run_start := 2; run_len := 1; run_color := (0, 255, 0, 128)%N |});
    [simpl; lia|right; left; reflexivity].
Defined.

(** X4.  The lengths of the runs of a row add up to the number of its
    pixels that are not fully transparent. *)
Theorem row_run_lengths (img : Image) (y : nat) :
  y < height img ->
  list_sum (map run_len (runs_of_row img y))
  = length (List.filter (fun x => visible img x y) (seq 0 (width img))).
Proof.
  intros Hy. rewrite (runs_of_row_scan img y Hy). unfold row_runs.
  rewrite scan_row_area by lia. now rewrite Nat.sub_0_r.
Qed.

Lemma row_run_lengths_witness :
  list_sum (map run_len (runs_of_row gap_image 0))
  = length (List.filter (fun x => visible gap_image x 0) (seq 0 (width gap_image))).
Proof. apply (row_run_lengths gap_image 0). simpl; lia. Defined.

Lemma covers_spans (r : Run) (x y : nat) :
  covers (rect_of_run r) x y = (run_y r =? y) && spans r x.
Proof.
  apply eq_true_iff_eq. rewrite covers_rect_of_run, andb_true_iff, Nat.eqb_eq. tauto.
Qed.

Lemma covering_count (runs : list Run) (x y : nat) :
  length (List.filter (fun q => covers q x y) (map rect_of_run runs))
  = span_count (List.filter (fun r => run_y r =? y) runs) x.
Proof.
  unfold span_count. induction runs as [|r runs IH]; [reflexivity|].
  cbn [map List.filter]. rewrite covers_spans.
  destruct (run_y r =? y); cbn [andb List.filter]; [|exact IH].
  destruct (spans r x); cbn [length]; now rewrite IH.
Qed.

(** X5.  In the whole document a visible pixel lies in exactly one
    rectangle and a fully transparent pixel in none: the rectangles do not
    overlap, also across rows. *)
Theorem pixel_in_one_rect (img : Image) (x y : nat) :
  x < width img -> y < height img ->
  length (List.filter (fun q => covers q x y) (map rect_of_run (encode img)))
  = if visible img x y then 1 else 0.
Proof.
  intros Hx Hy. rewrite covering_count. fold (runs_of_row img y).
  rewrite (runs_of_row_scan img y Hy). unfold row_runs, visible.
  rewrite scan_row_count by lia.
  now destruct (alpha (pixels img x y) =? 0)%N.
Qed.

Lemma pixel_in_one_rect_witness :
  length (List.filter (fun q => covers q 1 0) (map rect_of_run (encode gap_image))) = 0
  /\ length (List.filter (fun q => covers q 2 0) (map rect_of_run (encode gap_image))) = 1.
Proof.
  split.
  - apply (pixel_in_one_rect gap_image 1 0); simpl; lia.
  - apply (pixel_in_one_rect gap_image 2 0); simpl; lia.
Defined.

Lemma strongly_sorted_app {A : Type} (R : A -> A -> Prop) (l1 l2 : list A) :
  StronglySorted R l1 -> StronglySorted R l2 ->
  (forall a b, In a l1 -> In b l2 -> R a b) ->
  StronglySorted R (l1 ++ l2).
Proof.
  intros H1 H2 Hcross. induction H1 as [|a l1 Hs IH Ha]; [exact H2|].
  cbn [app]. constructor.
  - apply IH. intros a' b Ha' Hb. apply Hcross; [now right|exact Hb].
  - apply List.Forall_forall. intros b Hb. apply in_app_or in Hb as [Hb|Hb].
    + rewrite List.Forall_forall in Ha. now apply Ha.
    + apply Hcross; [now left|exact Hb].
Qed.

Lemma rows_from_sorted (img : Image) (a n : nat) :
  StronglySorted row_major (flat_map (row_runs img) (seq a n))
  /\ Forall (fun r => a <= run_y r) (flat_map (row_runs img) (seq a n)).
Proof.
  revert a; induction n as [|n IH]; intros a; [split; constructor|].
  cbn [seq flat_map]. destruct (IH (S a)) as [Hs Hge].
  pose proof (row_runs_ok img a) as Hok.
  split.
  - apply strongly_sorted_app; [| exact Hs |].
    + pose proof (scan_row_sorted (pixels img) (width img) a (width img) 0) as Hrow.
      fold (row_runs img a) in Hrow.
      induction Hrow as [|r l Hl IHl Hr]; [constructor|].
      apply Forall_cons in Hok as [Hr0 Hok]. constructor; [now apply IHl|].
      rewrite List.Forall_forall in *. intros r' Hr'. right.
      destruct Hr0 as (-> & _). destruct (Hok r' Hr') as (-> & _).
      split; [reflexivity|now apply Hr].
    + intros r1 r2 H1 H2. left.
      rewrite List.Forall_forall in Hok, Hge.
      destruct (Hok r1 H1) as (-> & _). specialize (Hge r2 H2). lia.
  - apply Forall_app. split.
    + eapply Forall_impl; [exact Hok|]. intros r (-> & _). lia.
    + eapply Forall_impl; [exact Hge|]. intros r Hr. simpl in Hr. lia.
Qed.

(** X6.  The runs are written in the order of the scan: rows from top to
    bottom and, inside a row, from left to right without overlap. *)
Theorem encode_row_major (img : Image) : StronglySorted row_major (encode img).
Proof. apply (rows_from_sorted img 0 (height img)). Qed.

(** X7.  For channels that are bytes, the fill text determines the red,
    green and blue channels and the six decimals of the opacity determine
    alpha: two colours that differ are never written alike. *)
Theorem fill_attributes_injective (r1 g1 b1 a1 r2 g2 b2 a2 : N) :
  byte_rgba (r1, g1, b1, a1) -> byte_rgba (r2, g2, b2, a2) ->
  (fst (rgba_to_svg_fill r1 g1 b1 a1) = fst (rgba_to_svg_fill r2 g2 b2 a2) ->
   (r1, g1, b1) = (r2, g2, b2))
  /\ (fmt_6f (snd (rgba_to_svg_fill r1 g1 b1 a1))
      = fmt_6f (snd (rgba_to_svg_fill r2 g2 b2 a2)) ->
      a1 = a2).
Proof.
  intros (Hr1 & Hg1 & Hb1 & Ha1) (Hr2 & Hg2 & Hb2 & Ha2). split.
  - cbn [fst rgba_to_svg_fill]. rewrite !fmt_02X_hex2 by assumption. intros Heq.
    pose proof (read_fill_hex r1 g1 b1 Hr1 Hg1 Hb1) as H1.
    pose proof (read_fill_hex r2 g2 b2 Hr2 Hg2 Hb2) as H2.
    rewrite Heq in H1. congruence.
  - rewrite (opacity_of_fill r1 g1 b1 a1), (opacity_of_fill r2 g2 b2 a2).
    assert (Hread : forall a, (a < 256)%N ->
              read_opacity (fmt_6f (snd (rgba_to_svg_fill 0 0 0 a))) = Some a).
    { intros a Ha.
      assert (H : match read_opacity (fmt_6f (snd (rgba_to_svg_fill 0 0 0 a))) with
                  | Some v => (v =? a)%N
                  | None => false
                  end = true).
      { revert a Ha.
        apply (below_256 (fun a =>
                 match read_opacity (fmt_6f (snd (rgba_to_svg_fill 0 0 0 a))) with
                 | Some v => (v =? a)%N
                 | None => false
                 end)).
        vm_compute. reflexivity. }
      destruct (read_opacity _) as [v|]; [|discriminate].
      apply N.eqb_eq in H. now subst. }
    intros Heq. pose proof (Hread a1 Ha1) as H1. pose proof (Hread a2 Ha2) as H2.
    rewrite Heq in H1. congruence.
Qed.

Lemma fill_attributes_injective_witness :
  (fst (rgba_to_svg_fill 255 0 0 128) = fst (rgba_to_svg_fill 255 0 0 127) ->
   (255, 0, 0)%N = (255, 0, 0)%N)
  /\ (fmt_6f (snd (rgba_to_svg_fill 255 0 0 128))
      = fmt_6f (snd (rgba_to_svg_fill 255 0 0 127)) ->
      128%N = 127%N).
Proof.
  apply (fill_attributes_injective 255 0 0 128 255 0 0 127);
    repeat split; reflexivity.
Defined.

(** * Properties of the selection *)

Lemma name_child (folder : path) (fname : string) : name (folder ++ [fname]) = fname.
Proof. unfold name. apply last_last. Qed.

Lemma supported_child (folder : path) (fname : string) :
  supported (folder ++ [fname]) = supported [fname].
Proof. unfold supported, suffix. now rewrite name_child. Qed.

Lemma child_path (d q : path) : is_child d q = true <-> q = d ++ [name q] /\ q <> [].
Proof.
  unfold is_child. rewrite bool_decide_eq_true. split.
  - intros [Hne <-]. split; [|exact Hne]. now apply app_removelast_last.
  - intros [Hq Hne]. split; [exact Hne|].
    rewrite Hq at 1. apply removelast_last.
Qed.

(** The names [os.listdir] gives are those of the entries of the folder. *)
Lemma elem_listdir (s : world) (folder : path) (fname : string) :
  fname ∈ listdir s folder <-> is_Some (nodes s !! (folder ++ [fname])).
Proof.
  unfold listdir. rewrite list_elem_of_fmap. split.
  - intros (q & -> & Hq). apply elem_children in Hq as [Hc Hq].
    apply child_path in Hc as [Hc _]. now rewrite <- Hc.
  - intros Hq. exists (folder ++ [fname]). split; [now rewrite name_child|].
    apply elem_children. split; [|exact Hq].
    apply child_path. rewrite name_child. split; [reflexivity|].
    intros H. now apply app_eq_nil in H as [_ H].
Qed.

Section Selection.
Variable resolve : path -> path.

(** The loop over the entries of a folder appends, without repeating a
    path, the resolved paths of the supported entries that are not selected
    yet. *)
Lemma add_folder_spec (folder : path) (fnames : list string) (st : list path * nat) :
  exists new,
    (add_folder resolve folder fnames st).1 = st.1 ++ new
    /\ (add_folder resolve folder fnames st).2 = st.2 + length new
    /\ (NoDup st.1 -> NoDup (add_folder resolve folder fnames st).1)
    /\ (forall q, q ∈ new ->
          exists fname, fname ∈ fnames /\ q = resolve (folder ++ [fname])
                        /\ supported [fname] = true)
    /\ (forall fname, fname ∈ fnames -> supported [fname] = true ->
          resolve (folder ++ [fname]) ∈ (add_folder resolve folder fnames st).1).
Proof.
  revert st; induction fnames as [|fname rest IH]; intros st.
  - exists []. cbn [add_folder]. rewrite app_nil_r. split; [reflexivity|].
    split; [simpl; lia|]. split; [auto|].
    split; [intros q Hq; inversion Hq|intros fname Hf; inversion Hf].
  - cbn [add_folder]. destruct (supported [fname]) eqn:Es.
    + destruct (bool_decide (resolve (folder ++ [fname]) ∈ st.1)) eqn:Ein.
      * apply bool_decide_eq_true in Ein.
        destruct (IH st) as (new & H1 & H2 & H3 & H4 & H5).
        exists new. split; [exact H1|]. split; [exact H2|]. split; [exact H3|]. split.
        -- intros q Hq. destruct (H4 q Hq) as (f & Hf & Hrest).
           exists f. split; [now right|exact Hrest].
        -- intros f Hf Hsup. apply elem_of_cons in Hf as [->|Hf]; [|now apply H5].
           rewrite H1. apply elem_of_app. now left.
      * apply bool_decide_eq_false in Ein.
        destruct (IH (st.1 ++ [resolve (folder ++ [fname])], st.2 + 1))
          as (new & H1 & H2 & H3 & H4 & H5).
        cbn [fst snd] in H1, H2, H3.
        exists (resolve (folder ++ [fname]) :: new).
        split; [rewrite H1, <- app_assoc; reflexivity|].
        split; [rewrite H2; simpl; lia|]. split.
        -- intros Hnd. apply H3. apply NoDup_app. split; [exact Hnd|]. split.
           ++ intros q Hq Hq'. apply list_elem_of_singleton in Hq'. now subst.
           ++ apply NoDup_singleton.
        -- split.
           ++ intros q Hq. apply elem_of_cons in Hq as [->|Hq].
              ** exists fname. split; [now left|]. split; [reflexivity|exact Es].
              ** destruct (H4 q Hq) as (f & Hf & Hrest).
                 exists f. split; [now right|exact Hrest].
           ++ intros f Hf Hsup. apply elem_of_cons in Hf as [->|Hf]; [|now apply H5].
              rewrite H1. apply elem_of_app. left. apply elem_of_app. right. now left.
    + destruct (IH st) as (new & H1 & H2 & H3 & H4 & H5).
      exists new. split; [exact H1|]. split; [exact H2|]. split; [exact H3|]. split.
      * intros q Hq. destruct (H4 q Hq) as (f & Hf & Hrest).
        exists f. split; [now right|exact Hrest].
      * intros f Hf Hsup. apply elem_of_cons in Hf as [->|Hf]; [congruence|now apply H5].
Qed.


Lemma wanted_in_folder (s : world) (p q : path) :
  is_dir s (resolve p) = true ->
  (wanted resolve s p q
   <-> exists fname, fname ∈ listdir s (resolve p)
                     /\ q = resolve (resolve p ++ [fname])
                     /\ supported [fname] = true).
Proof.
  intros Hdir. unfold wanted. split.
  - intros [(Hfile & _)|(_ & entry & Hc & Hq & Hsup & ->)].
    + unfold is_dir, is_file in *.
      destruct (nodes s !! resolve p) as [[]|]; discriminate.
    + apply child_path in Hc as [Hc _]. exists (name entry).
      split; [apply elem_listdir; now rewrite <- Hc|]. split; [now rewrite <- Hc|].
      rewrite <- supported_child with (folder := resolve p). now rewrite <- Hc.
  - intros (fname & Hf & -> & Hsup). right. split; [exact Hdir|].
    exists (resolve p ++ [fname]). split; [|split; [|split]].
    + apply child_path. rewrite name_child. split; [reflexivity|].
      intros H. now apply app_eq_nil in H as [_ H].
    + now apply elem_listdir.
    + now rewrite supported_child.
    + reflexivity.
Qed.

(** One iteration over a path: what it appends is wanted by the path and
    was not selected, and afterwards the resolved path is selected or
    everything the path wants is. *)
Lemma add_path_spec (s : world) (p : path) (st : list path * nat) :
  exists new,
    (add_path resolve s p st).1 = st.1 ++ new
    /\ (add_path resolve s p st).2 = st.2 + length new
    /\ (NoDup st.1 -> NoDup (add_path resolve s p st).1)
    /\ (forall q, q ∈ new -> wanted resolve s p q)
    /\ (forall q, wanted resolve s p q ->
          resolve p ∈ st.1 \/ q ∈ (add_path resolve s p st).1).
Proof.
  unfold add_path. destruct (bool_decide (resolve p ∈ st.1)) eqn:Ein.
  - apply bool_decide_eq_true in Ein. exists []. rewrite app_nil_r.
    split; [reflexivity|]. split; [simpl; lia|]. split; [auto|].
    split; [intros q Hq; inversion Hq|]. intros q _. now left.
  - apply bool_decide_eq_false in Ein. destruct (is_dir s (resolve p)) eqn:Edir.
    + destruct (add_folder_spec (resolve p) (listdir s (resolve p)) st)
        as (new & H1 & H2 & H3 & H4 & H5).
      exists new. split; [exact H1|]. split; [exact H2|]. split; [exact H3|]. split.
      * intros q Hq. apply (wanted_in_folder s p q Edir).
        destruct (H4 q Hq) as (f & Hrest). eauto.
      * intros q Hq. right.
        apply (wanted_in_folder s p q Edir) in Hq as (f & Hf & -> & Hsup).
        now apply H5.
    + assert (Hwant : forall q, wanted resolve s p q ->
                is_file s (resolve p) = true /\ q = resolve p
                /\ supported (resolve p) = true).
      { intros q [H|(Hd & _)]; [exact H|congruence]. }
      destruct (is_file s (resolve p)) eqn:Efile.
      * destruct (supported (resolve p)) eqn:Esup.
        -- exists [resolve p]. cbn [fst snd length].
           split; [reflexivity|]. split; [lia|]. split.
           ++ intros Hnd. apply NoDup_app. split; [exact Hnd|]. split.
              ** intros q Hq Hq'. apply list_elem_of_singleton in Hq'. now subst.
              ** apply NoDup_singleton.
           ++ split.
              ** intros q Hq. apply list_elem_of_singleton in Hq as ->.
                 left. auto.
              ** intros q Hq. destruct (Hwant q Hq) as (_ & -> & _).
                 right. apply elem_of_app. right. now left.
        -- exists []. rewrite app_nil_r. split; [reflexivity|]. split; [simpl; lia|].
           split; [auto|]. split; [intros q Hq; inversion Hq|].
           intros q Hq. destruct (Hwant q Hq) as (_ & _ & H). congruence.
      * exists []. rewrite app_nil_r. split; [reflexivity|]. split; [simpl; lia|].
        split; [auto|]. split; [intros q Hq; inversion Hq|].
        intros q Hq. destruct (Hwant q Hq) as (H & _). congruence.
Qed.


(** The whole loop of [_add_paths]. *)
Lemma add_paths_spec (s : world) (paths : list path) (st : list path * nat) :
  exists new,
    (fold_left (fun st p => add_path resolve s p st) paths st).1 = st.1 ++ new
    /\ (fold_left (fun st p => add_path resolve s p st) paths st).2 = st.2 + length new
    /\ (NoDup st.1 -> NoDup (fold_left (fun st p => add_path resolve s p st) paths st).1)
    /\ (forall q, q ∈ new -> exists p, p ∈ paths /\ wanted resolve s p q)
    /\ (forall p q, p ∈ paths -> wanted resolve s p q ->
          resolve p ∈ (fold_left (fun st p => add_path resolve s p st) paths st).1
          \/ q ∈ (fold_left (fun st p => add_path resolve s p st) paths st).1).
Proof.
  revert st; induction paths as [|p paths IH]; intros st.
  - exists []. cbn [fold_left]. rewrite app_nil_r. split; [reflexivity|].
    split; [simpl; lia|]. split; [auto|].
    split; [intros q Hq; inversion Hq|intros p q Hp; inversion Hp].
  - cbn [fold_left].
    destruct (add_path_spec s p st) as (n1 & A1 & A2 & A3 & A4 & A5).
    destruct (IH (add_path resolve s p st)) as (n2 & B1 & B2 & B3 & B4 & B5).
    exists (n1 ++ n2).
    split; [rewrite B1, A1, <- app_assoc; reflexivity|].
    split; [rewrite B2, A2, length_app; lia|].
    split; [auto|]. split.
    + intros q Hq. apply elem_of_app in Hq as [Hq|Hq].
      * exists p. split; [now left|now apply A4].
      * destruct (B4 q Hq) as (p' & Hp' & Hw). exists p'. split; [now right|exact Hw].
    + intros p' q Hp' Hw. apply elem_of_cons in Hp' as [->|Hp']; [|now apply B5].
      rewrite B1. destruct (A5 q Hw) as [H|H].
      * left. rewrite A1. apply elem_of_app. left. apply elem_of_app. now left.
      * right. apply elem_of_app. now left.
Qed.



(** X9.  [_add_paths] keeps the selection free of duplicates. *)
Theorem add_paths_no_duplicates (s : world) (selected paths : list path) :
  NoDup selected -> NoDup (_add_paths resolve s selected paths).1.
Proof.
  intros Hnd.
  destruct (add_paths_spec s paths (selected, 0)) as (new & _ & _ & H3 & _).
  unfold _add_paths. cbn [fst]. now apply H3.
Qed.


End Selection.

Lemma add_paths_no_duplicates_witness :
  NoDup (_add_paths link_resolve linked_world [["solo.webp"]]
           [["pics"]; ["solo.webp"]; ["pics"; "link.txt"]]).1.
Proof.
  apply (add_paths_no_duplicates link_resolve linked_world [["solo.webp"]]
           [["pics"]; ["solo.webp"]; ["pics"; "link.txt"]]).
  apply NoDup_singleton.
Defined.


(** A folder is read at its top level only, by suffix whatever the case,
    and an entry is taken by its name alone, a directory too. *)
Example add_paths_sample :
  _add_paths (fun p => p) picture_world []
    [["pics"]; ["solo.webp"]; ["pics"; "A.PNG"]; ["gone.png"]]
  = ([["pics"; "album.jpg"]; ["pics"; "A.PNG"]; ["solo.webp"]], "Added 3 file(s).").
Proof. vm_compute. reflexivity. Qed.

(** A given link is selected as what it points to, when that has a
    supported suffix; the suffix of the link itself does not count. *)
Example add_paths_given_links :
  _add_paths link_resolve linked_world [] [["pics"; "link.txt"]; ["pics"; "shot.png"]]
  = ([["pics"; "A.PNG"]], "Added 1 file(s).").
Proof. vm_compute. reflexivity. Qed.

(** Inside a folder it is the name of the entry that counts: the link
    [shot.png] is taken, as the text file it points to. *)
Example add_paths_folder_links :
  _add_paths link_resolve linked_world [] [["pics"]]
  = ([["pics"; "album.jpg"]; ["pics"; "notes.txt"]; ["pics"; "A.PNG"]], "Added 3 file(s).").
Proof. vm_compute. reflexivity. Qed.

(** * Further properties of the batch driver *)

Lemma forallb_false_ex {A : Type} (f : A -> bool) (l : list A) :
  forallb f l = false -> exists x, In x l /\ f x = false.
Proof.
  induction l as [|a l IH]; [discriminate|]. cbn [forallb].
  destruct (f a) eqn:E.
  - intros H. destruct (IH H) as (x & Hx & Hf). exists x. split; [now right|exact Hf].
  - intros _. exists a. split; [now left|exact E].
Qed.

(** The deletions of [clear_converted] free room and never take any. *)
Lemma unlink_each_free (l : list path) (s : world) :
  free s <= free (for_each l (fun f => try_except (unlink f) (fun _ => ret tt)) s).2.
Proof.
  revert s; induction l as [|f l IH]; intros s; [simpl; lia|].
  cbn [for_each]. unfold bind at 1, try_except at 1, unlink at 1.
  destruct (nodes s !! f) as [[data [|]|]|]; try apply IH.
  etransitivity; [|apply IH]. simpl. lia.
Qed.

Section DriverMore.
Context {platform : Platform}.

(** What [clear_converted] leaves when the output directory is there. *)
Lemma clear_converted_run (s : world) :
  nodes s !! OUTPUT_DIR = Some Dir ->
  exists s',
    clear_converted s = (Ok tt, s')
    /\ free s <= free s'
    /\ (forall q, is_child OUTPUT_DIR q = true ->
          nodes s' !! q = if unlinkable (nodes s !! q) then None else nodes s !! q)
    /\ (forall q, is_child OUTPUT_DIR q = false -> q <> OUTPUT_DIR ->
          nodes s' !! q = nodes s !! q)
    /\ nodes s' !! OUTPUT_DIR
       = if forallb (fun q => unlinkable (nodes s !! q)) (children OUTPUT_DIR (nodes s))
         then None else Some Dir.
Proof.
  intros Hdir. unfold clear_converted, bind at 1, path_exists.
  rewrite bool_decide_eq_true_2 by (rewrite Hdir; eauto).
  unfold bind at 1, bind at 1, iterdir. rewrite Hdir.
  pose proof (unlink_each_free (children OUTPUT_DIR (nodes s)) s) as Hfree.
  destruct (unlink_each (children OUTPUT_DIR (nodes s)) s) as (s1 & Hrun & _ & Hn).
  rewrite Hrun in Hfree |- *. cbn [snd] in Hfree.
  assert (Hmid : forall q, nodes s1 !! q
            = if is_child OUTPUT_DIR q && unlinkable (nodes s !! q)
              then None else nodes s !! q).
  { intros q. rewrite Hn. destruct (is_child OUTPUT_DIR q) eqn:Ec.
    - destruct (nodes s !! q) as [nd|] eqn:Eq.
      + rewrite bool_decide_eq_true_2; [reflexivity|].
        apply elem_children. rewrite Eq. eauto.
      + now rewrite andb_false_r.
    - rewrite bool_decide_eq_false_2; [reflexivity|].
      intros Hin. apply elem_children in Hin as [Hin _]. congruence. }
  assert (Hself : is_child OUTPUT_DIR OUTPUT_DIR = false) by apply output_dir_not_child.
  assert (Hdir1 : nodes s1 !! OUTPUT_DIR = Some Dir).
  { rewrite Hmid, Hself. exact Hdir. }
  assert (Hempty : children OUTPUT_DIR (nodes s1) = []
            <-> forallb (fun q => unlinkable (nodes s !! q))
                        (children OUTPUT_DIR (nodes s)) = true).
  { rewrite children_nil, forallb_forall. split.
    - intros Hall q Hq. apply list_elem_of_In, elem_children in Hq as [Hc [nd Hnd]].
      specialize (Hall q Hc). rewrite Hmid, Hc in Hall. cbn [andb] in Hall.
      destruct (unlinkable (nodes s !! q)); [reflexivity|congruence].
    - intros Hall q Hc. rewrite Hmid, Hc. cbn [andb].
      destruct (nodes s !! q) as [nd|] eqn:Eq; [|now destruct (unlinkable None)].
      rewrite <- Eq. rewrite Hall; [reflexivity|].
      apply list_elem_of_In, elem_children. rewrite Eq. eauto. }
  unfold try_except, rmdir. rewrite Hdir1.
  destruct (children OUTPUT_DIR (nodes s1)) as [|c cs] eqn:Ech.
  - exists (with_nodes (delete OUTPUT_DIR) s1). split; [reflexivity|].
    cbn [with_nodes nodes free]. split; [exact Hfree|]. split; [|split].
    + intros q Hc. rewrite lookup_delete_ne, Hmid, Hc; [reflexivity|].
      intros <-. congruence.
    + intros q Hc Hne. rewrite lookup_delete_ne, Hmid, Hc by congruence. reflexivity.
    + rewrite lookup_delete_eq. rewrite (proj1 Hempty eq_refl). reflexivity.
  - exists s1. split; [reflexivity|]. split; [exact Hfree|]. split; [|split].
    + intros q Hc. now rewrite Hmid, Hc.
    + intros q Hc Hne. now rewrite Hmid, Hc.
    + rewrite Hdir1. destruct (forallb _ _); [|reflexivity].
      destruct Hempty as [_ Hback]. specialize (Hback eq_refl). discriminate.
Qed.

(** One iteration leaves the files as they are or creates the output of its
    path, which was not there. *)
Lemma convert_path_frame (src : path) (t : tally) (s : world) :
  nodes (convert_path src t s).2 = nodes s
  \/ (nodes s !! out_svg src = None
      /\ exists data,
           nodes (convert_path src t s).2 = <[out_svg src := File data false]> (nodes s)).
Proof.
  unfold convert_path, try_except.
  destruct (nodes s !! src) as [nd|] eqn:Esrc.
  - destruct (nodes s !! out_svg src) as [no|] eqn:Eout.
    + rewrite convert_try_skip by (rewrite ?Esrc, ?Eout; eauto). now left.
    + pose proof (convert_try_attempt src t s) as H.
      rewrite Esrc in H. specialize (H ltac:(eauto) Eout).
      destruct (decoded s src) as [img|e].
      * destruct H as [[_ ->]|[_ (k & r & s' & -> & Hn & _ & Hr)]]; [now left|].
        right. split; [reflexivity|].
        destruct Hr as [(-> & _)|(-> & _)]; cbn [snd ret]; eauto.
      * rewrite H. now left.
  - rewrite convert_try_missing by assumption. now left.
Qed.

Lemma for_fold_frame (paths : list path) (t : tally) (s : world) :
  nodes s ⊆ nodes (for_fold paths convert_path t s).2
  /\ forall q, (forall p, p ∈ paths -> q <> out_svg p) ->
       nodes (for_fold paths convert_path t s).2 !! q = nodes s !! q.
Proof.
  revert t s; induction paths as [|src paths IH]; intros t s.
  - split; [reflexivity|]. intros q _. reflexivity.
  - cbn [for_fold]. unfold bind.
    destruct (convert_path_records src t s) as (t1 & s1 & Hrun & _).
    pose proof (convert_path_frame src t s) as Hframe.
    rewrite Hrun in Hframe |- *. cbn [snd] in Hframe.
    destruct (IH t1 s1) as [Hsub Hother].
    split.
    + etransitivity; [|exact Hsub].
      destruct Hframe as [->|[Hnone [data ->]]]; [reflexivity|].
      now apply insert_subseteq.
    + intros q Hq. rewrite Hother by (intros p Hp; apply Hq; now right).
      destruct Hframe as [->|[_ [data ->]]]; [reflexivity|].
      apply lookup_insert_ne. intros Heq. apply (Hq src); [now left|now symmetry].
Qed.

(** X12.  [convert_selected] never changes or removes an entry that is
    there: the inputs and the outputs of earlier conversions stay as they
    are, whatever the outcome. *)
Theorem convert_selected_keeps_entries (paths : list path) (s : world) :
  nodes s ⊆ nodes (convert_selected paths s).2.
Proof.
  unfold convert_selected. destruct paths as [|p paths]; [reflexivity|].
  unfold bind, mkdir_exist_ok.
  destruct (nodes s !! OUTPUT_DIR) as [[data lk|]|] eqn:Edir; [reflexivity| |].
  - apply for_fold_frame.
  - destruct (nodes s !! removelast OUTPUT_DIR) as [[data lk|]|]; try reflexivity.
    etransitivity; [|apply for_fold_frame].
    cbn [with_nodes nodes]. now apply insert_subseteq.
Qed.

(** X13.  [convert_selected] touches nothing but the output directory and
    the output paths of the selected paths. *)
Theorem convert_selected_touches_outputs (paths : list path) (s : world) (q : path) :
  q <> OUTPUT_DIR -> (forall p, p ∈ paths -> q <> out_svg p) ->
  nodes (convert_selected paths s).2 !! q = nodes s !! q.
Proof.
  intros Hq Hout. unfold convert_selected. destruct paths as [|p paths]; [reflexivity|].
  unfold bind, mkdir_exist_ok.
  destruct (nodes s !! OUTPUT_DIR) as [[data lk|]|] eqn:Edir; [reflexivity| |].
  - now apply for_fold_frame.
  - destruct (nodes s !! removelast OUTPUT_DIR) as [[data lk|]|]; try reflexivity.
    rewrite (proj2 (for_fold_frame _ _ _)) by exact Hout.
    cbn [with_nodes nodes]. apply lookup_insert_ne. congruence.
Qed.

(** X14.  Once a path has been converted, another path that is there and
    has the same stem is recorded as skipped and nothing is written: the
    output keeps the text of the first. *)
Theorem same_stem_skipped (src1 src2 : path) (t : tally) (s s1 : world) :
  convert_path src1 t s = (Ok (converted_append t (name src1)), s1) ->
  is_Some (nodes s !! src2) ->
  stem src1 = stem src2 ->
  convert_path src2 (converted_append t (name src1)) s1
  = (Ok (skipped_append (converted_append t (name src1)) (name src2)), s1).
Proof.
  intros Hrun Hsrc2 Hstem.
  destruct (converted_written src1 t s s1 Hrun) as (_ & Hout & img & _ & Hn & _).
  assert (Hsame : out_svg src2 = out_svg src1) by (unfold out_svg; now rewrite Hstem).
  apply convert_path_skip.
  - rewrite Hn. destruct (decide (out_svg src1 = src2)) as [E|E].
    + rewrite E, lookup_insert_eq. eauto.
    + now rewrite lookup_insert_ne.
  - rewrite Hsame, Hn, lookup_insert_eq. eauto.
Qed.

(** X15.  A path is recorded as converted only once its whole text is in
    the output file: the path was there, its output path was free, the
    text of the decoded image fitted on the disk, [Image.open] was called
    once, on the path, and the iteration leaves the output holding exactly
    that text and every other entry as it was. *)
Theorem conversion_writes_text (src : path) (t : tally) (s s' : world) :
  convert_path src t s = (Ok (converted_append t (name src)), s') ->
  is_Some (nodes s !! src) /\ nodes s !! out_svg src = None
  /\ exists img,
       decoded s src = Ok img
       /\ String.length (svg_text img) <= free s
       /\ nodes s' = <[out_svg src := File (svg_text img) false]> (nodes s)
       /\ opened s' = opened s ++ [src].
Proof.
  intros Hrun.
  destruct (converted_written src t s s' Hrun) as (Hsrc & Hout & img & Himg & Hn & Ho & Hroom).
  split; [exact Hsrc|]. split; [exact Hout|]. exists img. auto.
Qed.

(** X16.  When the output directory is a regular file, [convert_selected]
    on a selection that is not empty and [clear_converted] both raise, and
    nothing is changed; no selected path is looked at. *)
Theorem output_dir_is_a_file (s : world) (data : string) (lk : bool)
    (p : path) (paths : list path) :
  nodes s !! OUTPUT_DIR = Some (File data lk) ->
  (exists e, convert_selected (p :: paths) s = (Raise e, s))
  /\ (exists e, clear_converted s = (Raise e, s)).
Proof.
  intros Hfile. split.
  - unfold convert_selected, bind, mkdir_exist_ok. rewrite Hfile. eauto.
  - unfold clear_converted, bind at 1, path_exists.
    rewrite bool_decide_eq_true_2 by (rewrite Hfile; eauto).
    unfold bind, iterdir. rewrite Hfile. eauto.
Qed.

(** X17.  Clearing twice is clearing once: a second [clear_converted]
    returns normally and leaves the files as the first left them. *)
Theorem clear_converted_twice (s s1 : world) :
  clear_converted s = (Ok tt, s1) ->
  exists s2, clear_converted s1 = (Ok tt, s2) /\ nodes s2 = nodes s1.
Proof.
  intros Hrun.
  assert (Hnone : forall s0, nodes s0 !! OUTPUT_DIR = None -> clear_converted s0 = (Ok tt, s0)).
  { intros s0 H0. unfold clear_converted, bind, path_exists.
    rewrite H0, bool_decide_eq_false_2 by (apply is_Some_None). reflexivity. }
  destruct (nodes s !! OUTPUT_DIR) as [[data lk|]|] eqn:Edir.
  - unfold clear_converted, bind at 1, path_exists in Hrun.
    rewrite bool_decide_eq_true_2 in Hrun by (rewrite Edir; eauto).
    unfold bind, iterdir in Hrun. rewrite Edir in Hrun. discriminate.
  - destruct (clear_converted_run s Edir) as (s' & Hs' & _ & Hin & Hout & Hself).
    rewrite Hs' in Hrun. injection Hrun as <-.
    destruct (nodes s' !! OUTPUT_DIR) as [nd|] eqn:Edir1; [|exists s'; auto].
    assert (Hall : forallb (fun q => unlinkable (nodes s !! q))
                     (children OUTPUT_DIR (nodes s)) = false).
    { destruct (forallb _ _); [discriminate|reflexivity]. }
    rewrite Hall in Hself. injection Hself as ->.
    destruct (clear_converted_run s' Edir1) as (s2 & Hs2 & _ & Hin2 & Hout2 & Hself2).
    exists s2. split; [exact Hs2|]. apply map_eq. intros q.
    destruct (decide (q = OUTPUT_DIR)) as [->|Hne].
    + rewrite Hself2, Edir1.
      replace (forallb (fun q => unlinkable (nodes s' !! q))
                 (children OUTPUT_DIR (nodes s'))) with false; [reflexivity|].
      symmetry. apply not_true_is_false. intros Htrue.
      rewrite forallb_forall in Htrue.
      apply forallb_false_ex in Hall as (q0 & Hq0 & Hunl).
      apply list_elem_of_In, elem_children in Hq0 as [Hc Hex].
      assert (Hsame : nodes s' !! q0 = nodes s !! q0) by now rewrite Hin, Hunl.
      specialize (Htrue q0). rewrite Hsame, Hunl in Htrue.
      assert (Hq0 : In q0 (children OUTPUT_DIR (nodes s'))).
      { apply list_elem_of_In, elem_children. now rewrite Hsame. }
      specialize (Htrue Hq0). discriminate.
    + destruct (is_child OUTPUT_DIR q) eqn:Ec.
      * rewrite Hin2, Hin by exact Ec.
        destruct (unlinkable (nodes s !! q)) eqn:Eu; [reflexivity|]. now rewrite Eu.
      * now rewrite Hout2.
  - rewrite Hnone in Hrun by exact Edir. injection Hrun as <-.
    exists s. split; [now apply Hnone|reflexivity].
Qed.
End DriverMore.

Section DriverOrder.
Context {platform : Platform}.




(** The names the loop appends, in the order of the paths. *)
Lemma for_fold_order (paths : list path) (t t' : tally) (s s' : world) :
  for_fold paths convert_path t s = (Ok t', s') ->
  exists c k e ne,
    converted t' = converted t ++ c
    /\ skipped t' = skipped t ++ k
    /\ errors t' = errors t ++ e
    /\ c `sublist_of` (name <$> paths)
    /\ k `sublist_of` (name <$> paths)
    /\ ne `sublist_of` (name <$> paths)
    /\ Forall2 (fun err n => exists msg, err = n +:+ msg) e ne.
Proof.
  revert t s; induction paths as [|src paths IH]; intros t s Hrun.
  - cbn [for_fold] in Hrun. injection Hrun as <- <-.
    exists [], [], [], []. rewrite !app_nil_r.
    repeat split; try reflexivity; constructor.
  - cbn [for_fold] in Hrun. unfold bind in Hrun.
    destruct (convert_path_records src t s) as (t1 & s1 & Hstep & Hrec).
    rewrite Hstep in Hrun.
    destruct (IH t1 s1 Hrun) as (c & k & e & ne & Hc & Hk & He & Sc & Sk & Sne & Hf).
    cbn [fmap list_fmap].
    destruct Hrec as [->|[->|[msg ->]]]; cbn [converted skipped errors converted_append
      skipped_append errors_append] in Hc, Hk, He.
    + exists (name src :: c), k, e, ne.
      rewrite Hc, Hk, He, <- app_assoc.
      repeat split; try reflexivity; try assumption;
        try (apply sublist_cons; assumption).
      now apply sublist_skip.
    + exists c, (name src :: k), e, ne.
      rewrite Hc, Hk, He, <- app_assoc.
      repeat split; try reflexivity; try assumption;
        try (apply sublist_cons; assumption).
      now apply sublist_skip.
    + exists c, k, ((name src +:+ msg) :: e), (name src :: ne).
      rewrite Hc, Hk, He, <- app_assoc.
      repeat split; try reflexivity; try assumption;
        try (apply sublist_cons; assumption).
      * now apply sublist_skip.
      * constructor; [eauto|assumption].
Qed.

(** X19.  The three lists [convert_selected] fills keep the order of the
    selection: the converted names and the skipped names are sublists of the
    names of the selected paths, and the errors are, in that order too, each
    the name of a selected path followed by its reason. *)
Theorem outcomes_in_order (paths : list path) (s s' : world) (t' : tally) :
  convert_selected paths s = (Ok t', s') ->
  converted t' `sublist_of` (name <$> paths)
  /\ skipped t' `sublist_of` (name <$> paths)
  /\ exists ne, ne `sublist_of` (name <$> paths)
                /\ Forall2 (fun err n => exists msg, err = n +:+ msg) (errors t') ne.
Proof.
  unfold convert_selected. destruct paths as [|p paths].
  - intros [= <- <-]. cbn. split; [constructor|]. split; [constructor|].
    exists []. split; constructor.
  - unfold bind at 1. destruct (mkdir_exist_ok OUTPUT_DIR s) as [[[]|e] s0]; [|discriminate].
    intros Hrun.
    destruct (for_fold_order (p :: paths) no_tally t' s0 s' Hrun)
      as (c & k & e & ne & Hc & Hk & He & Sc & Sk & Sne & Hf).
    cbn [no_tally converted skipped errors app] in Hc, Hk, He.
    rewrite Hc, Hk, He. eauto 6.
Qed.
End DriverOrder.

(** ** The further properties on the sample worlds *)

Lemma convert_selected_touches_outputs_witness :
  nodes (@convert_selected sample_platform [["in"; "a.png"]; ["in"; "b.png"]]
           sample_world).2 !! ["in"; "a.png"]
  = nodes sample_world !! ["in"; "a.png"].
Proof.
  apply (@convert_selected_touches_outputs sample_platform
           [["in"; "a.png"]; ["in"; "b.png"]] sample_world ["in"; "a.png"]).
  - discriminate.
  - intros p Hp. apply elem_of_cons in Hp as [->|Hp]; [discriminate|].
    apply list_elem_of_singleton in Hp as ->. discriminate.
Defined.

Lemma same_stem_skipped_witness :
  exists s1,
    @convert_path sample_platform ["in"; "a.png"] no_tally twin_world
    = (Ok (converted_append no_tally "a.png"), s1)
    /\ @convert_path sample_platform ["in"; "a.jpg"]
         (converted_append no_tally "a.png") s1
       = (Ok (skipped_append (converted_append no_tally "a.png") "a.jpg"), s1).
Proof.
  exists (@convert_path sample_platform ["in"; "a.png"] no_tally twin_world).2.
  assert (Hrun : @convert_path sample_platform ["in"; "a.png"] no_tally twin_world
                 = (Ok (converted_append no_tally "a.png"),
                    (@convert_path sample_platform ["in"; "a.png"] no_tally twin_world).2)).
  { vm_compute. reflexivity. }
  split; [exact Hrun|].
  apply (@same_stem_skipped sample_platform ["in"; "a.png"] ["in"; "a.jpg"]
           no_tally twin_world _ Hrun).
  - exists (File "other pixels" false). vm_compute. reflexivity.
  - vm_compute. reflexivity.
Defined.

Lemma conversion_writes_text_witness :
  exists s',
    @convert_path sample_platform ["in"; "a.png"] no_tally sample_world
    = (Ok (converted_append no_tally "a.png"), s')
    /\ exists img,
         @decoded sample_platform sample_world ["in"; "a.png"] = Ok img
         /\ String.length (svg_text img) <= free sample_world
         /\ nodes s' = <[@out_svg sample_platform ["in"; "a.png"]
                          := File (svg_text img) false]> (nodes sample_world)
         /\ opened s' = opened sample_world ++ [["in"; "a.png"]].
Proof.
  exists (@convert_path sample_platform ["in"; "a.png"] no_tally sample_world).2.
  assert (Hrun : @convert_path sample_platform ["in"; "a.png"] no_tally sample_world
                 = (Ok (converted_append no_tally "a.png"),
                    (@convert_path sample_platform ["in"; "a.png"] no_tally sample_world).2)).
  { vm_compute. reflexivity. }
  split; [exact Hrun|].
  exact (proj2 (proj2 (@conversion_writes_text sample_platform ["in"; "a.png"] no_tally
                         sample_world _ Hrun))).
Defined.

Lemma output_dir_is_a_file_witness :
  (exists e, @convert_selected sample_platform [["in"; "a.png"]] blocked_world
             = (Raise e, blocked_world))
  /\ (exists e, @clear_converted sample_platform blocked_world = (Raise e, blocked_world)).
Proof.
  apply (@output_dir_is_a_file sample_platform blocked_world "not a folder" false).
  vm_compute. reflexivity.
Defined.

Lemma clear_converted_twice_witness :
  exists s2,
    @clear_converted sample_platform
      (@clear_converted sample_platform cluttered_world).2 = (Ok tt, s2)
    /\ nodes s2 = nodes (@clear_converted sample_platform cluttered_world).2.
Proof.
  apply (@clear_converted_twice sample_platform cluttered_world).
  vm_compute. reflexivity.
Defined.


(** The second batch converts [a.png] again. *)
Example convert_clear_convert :
  let s0 := (@convert_selected sample_platform [["in"; "a.png"]] sample_world).2 in
  let s1 := (@clear_converted sample_platform s0).2 in
  fst (@convert_selected sample_platform [["in"; "a.png"]] s0)
  = Ok {| converted := []; skipped := ["a.png"]; errors := [] |}
  /\ fst (@convert_selected sample_platform [["in"; "a.png"]] s1)
     = Ok {| converted := ["a.png"]; skipped := []; errors := [] |}.
Proof. vm_compute. split; reflexivity. Qed.

Lemma outcomes_in_order_witness :
  ["a.png"] `sublist_of` (name <$> [["in"; "b.png"]; ["in"; "a.png"]; ["in"; "a.png"]])
  /\ ["a.png"] `sublist_of` (name <$> [["in"; "b.png"]; ["in"; "a.png"]; ["in"; "a.png"]])
  /\ exists ne,
       ne `sublist_of` (name <$> [["in"; "b.png"]; ["in"; "a.png"]; ["in"; "a.png"]])
       /\ Forall2 (fun err n => exists msg, err = n +:+ msg)
            ["b.png (error: cannot identify image file)"] ne.
Proof.
  apply (@outcomes_in_order sample_platform
           [["in"; "b.png"]; ["in"; "a.png"]; ["in"; "a.png"]] sample_world
           (@convert_selected sample_platform
              [["in"; "b.png"]; ["in"; "a.png"]; ["in"; "a.png"]] sample_world).2
           {| converted := ["a.png"]; skipped := ["a.png"];
              errors := ["b.png (error: cannot identify image file)"] |}).
  vm_compute. reflexivity.
Defined.
